(** * Restaurant menu and identity backend: a shallow embedding

    The development follows the two source files of the repository.

    - [main1] embeds [main1.py], the menu service: the [dishes] table of the
      SQLite store, the SQL statements the handlers execute, the handlers
      themselves and the bearer-token dependency that guards some of them.
    - [users] embeds [users.py], the identity service: the [users] table,
      the signed credential and the register / login / change-password
      handlers.

    Conventions.  A handler of the source opens a connection, runs its
    statements and closes the connection; here it is a function from the
    store to an outcome and the new store, run against a database that no
    other connection holds a lock on.  A raised [HTTPException] and an
    exception nobody catches are outcomes of their own, so that "fails with
    404" and "propagates a storage error" are different values.  A Python
    integer is a [Z]; an INTEGER of SQLite is an [int64], and binding the
    one as the other fails outside the signed 64-bit range.  Text is
    [string]; points in time are whole seconds, as in the [exp] claim of a
    token. *)

From Stdlib Require Import Ascii String.
From stdpp Require Import base numbers gmap strings list fin_maps pretty sorting.

Local Open Scope Z_scope.
Local Set Warnings "-register-all".

(** ** Values shared by both services *)

(** JSON values, as the handlers build them from Python literals. *)
Inductive Json :=
| JNull
| JBool (b : bool)
| JInt (n : Z)
| JStr (s : string)
| JList (l : list Json)
| JDict (d : list (string * Json)).

(** [d[k] = v] on a Python dict: an existing key keeps its position and
    takes the new value, a new key is appended. *)
Fixpoint dict_setitem (k : string) (v : Json) (d : list (string * Json))
  : list (string * Json) :=
  match d with
  | [] => [(k, v)]
  | (k', v') :: d' =>
      if bool_decide (k = k') then (k', v) :: d'
      else (k', v') :: dict_setitem k v d'
  end.

(** [{**d, **extra}]: the items of [extra] are stored into [d] in order. *)
Definition dict_unpack (d extra : list (string * Json)) : list (string * Json) :=
  fold_left (λ acc kv, dict_setitem kv.1 kv.2 acc) extra d.

(** ** SQLite integers

    SQLite stores an INTEGER in at most 64 bits, signed.  A rowid, a
    [category_id] and a [stock] of the store are such integers; a Python
    [int] of a request is not bounded. *)

Definition INT64_MIN : Z := -9223372036854775808.
Definition INT64_MAX : Z := 9223372036854775807.

Definition fits_int64 (z : Z) : bool :=
  (INT64_MIN <=? z) && negb (INT64_MAX <? z).

Record int64 := Int64 {
  int64_Z :> Z;
  int64_fits : Is_true (fits_int64 int64_Z);
}.

(** Binding a Python [int] as a statement parameter: [None] stands for the
    [OverflowError] the database module raises when the integer does not
    fit. *)
Definition bind (z : Z) : option int64 :=
  match decide (Is_true (fits_int64 z)) with
  | left H => Some (Int64 z H)
  | right _ => None
  end.

(** Binding an [Optional[int]]: Python [None] is bound as NULL. *)
Definition bind_optional (o : option Z) : option (option int64) :=
  match o with
  | None => Some None
  | Some z => Some <$> bind z
  end.

(** The [int64] written as the literal [z], for sample data. *)
Definition i64 (z : Z) : int64 := default (Int64 0 I) (bind z).

(** Two [int64] with the same value are the same, and an [int64] binds
    as itself; the instances below rest on these two facts. *)
Lemma int64_Z_inj (a b : int64) : int64_Z a = int64_Z b → a = b.
Proof.
  destruct a as [a Ha], b as [b Hb]. simpl. intros ->. f_equal. apply proof_irrel.
Qed.

Lemma bind_int64 (k : int64) : bind k = Some k.
Proof.
  unfold bind. destruct (decide (Is_true (fits_int64 k))) as [H|H].
  - f_equal. by apply int64_Z_inj.
  - destruct H. apply int64_fits.
Qed.

#[global] Instance int64_eq_dec : EqDecision int64.
Proof.
  intros a b. destruct (decide (int64_Z a = int64_Z b)) as [Heq|Hne].
  - left. by apply int64_Z_inj.
  - right. intros ->. by apply Hne.
Defined.

#[global] Instance int64_countable : Countable int64 :=
  inj_countable int64_Z bind bind_int64.

(** The order of rowids, on rows with their key. *)
Definition rowid_le {A} (a b : int64 * A) : Prop := int64_Z a.1 ≤ int64_Z b.1.

#[global] Instance rowid_le_dec {A} : RelDecision (@rowid_le A).
Proof. intros a b. unfold rowid_le. apply _. Defined.

Module main1.

(** *** The data model *)

(** [class Dish(BaseModel)]: the integers are Python integers. *)
Record Dish := {
  id : Z;
  name : string;
  category_id : Z;
  availability : bool;
  stock : option Z;
}.

(** A row of the table [dishes] without its key.  [category_id] and
    [stock] are INTEGER columns; [stock] may be NULL.  SQLite has no
    boolean type: the column [availability BOOLEAN NOT NULL] holds a
    number, which the service writes from a Python [bool], bound as 0 or
    1, or as the literal 0. *)
Record Row := {
  col_name : string;
  col_category_id : int64;
  col_availability : Z;
  col_stock : option int64;
}.

(** The store: the table [dishes] keyed by its INTEGER PRIMARY KEY, the
    counter SQLite keeps for AUTOINCREMENT, and the table [categories]. *)
Record Store := {
  dishes : gmap int64 Row;
  dishes_seq : Z;
  categories : gmap Z string;
}.

Definition with_dishes (t : gmap int64 Row) (seq : Z) (db : Store) : Store :=
  {| dishes := t; dishes_seq := seq; categories := categories db |}.

Inductive Exn :=
| IntegrityError (msg : string)
| OverflowError (msg : string)
| OperationalError (msg : string)
| ResponseValidationError.

(** What becomes of the connection of a handler when an exception leaves
    it.  The handlers close their connection on the paths that return or
    raise an [HTTPException]; an exception out of [cursor.execute] skips
    the [db.close()], and the connection stays open until the interpreter
    collects it.

    - [closed]: the handler had closed the connection before the error.
    - [open_idle]: left open, holding no lock on the database file.  That
      is so when a parameter could not be bound (the statement was never
      run), when SQLite found no rowid left (it rolls the transaction
      back itself), and when the database was locked.
    - [open_writing]: left open inside a write transaction.  That is so
      when the statement broke a constraint: SQLite backs the statement
      out and keeps the transaction, and with it the write lock of the
      database file. *)
Inductive Connection :=
| closed
| open_idle
| open_writing.

Inductive Outcome :=
| JSONResponse (content : Json) (status_code : Z)
| HTTPException (status_code : Z) (detail : string)
| Unhandled (e : Exn) (connection : Connection).

Definition HTTP_200_OK : Z := 200.
Definition HTTP_201_CREATED : Z := 201.
Definition HTTP_400_BAD_REQUEST : Z := 400.
Definition HTTP_401_UNAUTHORIZED : Z := 401.
Definition HTTP_404_NOT_FOUND : Z := 404.

(** *** SQL statements on [dishes] *)

(** The rows of the table as a scan meets them: by ascending rowid. *)
Definition rows (t : gmap int64 Row) : list (int64 * Row) :=
  merge_sort rowid_le (map_to_list t).

(** [SELECT * FROM dishes WHERE P]. *)
Definition select (P : int64 → Row → bool) (t : gmap int64 Row)
  : list (int64 * Row) :=
  List.filter (λ kr, P kr.1 kr.2) (rows t).

(** [SELECT COUNT( * ) FROM dishes WHERE P]. *)
Definition count (P : int64 → Row → bool) (t : gmap int64 Row) : Z :=
  Z.of_nat (length (select P t)).

(** The largest rowid of the table, 0 for the empty table. *)
Definition max_rowid (t : gmap int64 Row) : Z :=
  foldr (λ kr acc, Z.max (int64_Z kr.1) acc) 0 (map_to_list t).

(** The rowid AUTOINCREMENT gives to the next row: one more than the
    largest rowid the table holds or has ever held. *)
Definition next_rowid (db : Store) : Z :=
  Z.max (dishes_seq db) (max_rowid (dishes db)) + 1.

Definition too_large : Exn :=
  OverflowError "Python int too large to convert to SQLite INTEGER".

Definition unique_name_failed : Exn :=
  IntegrityError "UNIQUE constraint failed: dishes.name".

Definition database_full : Exn :=
  OperationalError "database or disk is full".

Definition database_locked : Exn :=
  OperationalError "database is locked".

(** The connection a failed INSERT or UPDATE leaves behind. *)
Definition after_failure (e : Exn) : Connection :=
  match e with
  | IntegrityError _ => open_writing
  | _ => open_idle
  end.

(** [name TEXT NOT NULL UNIQUE]: is the name held by a row other than
    [self]? *)
Definition name_taken (self : option int64) (n : string) (t : gmap int64 Row)
  : bool :=
  match select (λ k r, bool_decide (col_name r = n) && bool_decide (Some k ≠ self)) t with
  | [] => false
  | _ :: _ => true
  end.

(** [INSERT INTO dishes (name, category_id, availability, stock) VALUES ...]
    with its parameters bound: the new rowid ([cursor.lastrowid]) and the
    new store, or the error.  The statement fails when AUTOINCREMENT has no
    rowid left and when the name is taken.  The foreign key on
    [category_id] is declared only: [get_db] does not switch foreign keys
    on, so SQLite does not check it. *)
Definition insert_dish (r : Row) (db : Store) : Exn + int64 * Store :=
  match bind (next_rowid db) with
  | None => inl database_full
  | Some rid =>
      if name_taken None (col_name r) (dishes db) then inl unique_name_failed
      else inr (rid, with_dishes (<[rid := r]> (dishes db)) rid db)
  end.

(** [INSERT OR IGNORE INTO dishes (id, name, ...) VALUES ...]: a row that
    would break the primary key or the uniqueness of [name] is skipped.
    The AUTOINCREMENT counter is raised to the given rowid either way:
    SQLite notes the rowid before it checks the constraints. *)
Definition insert_or_ignore_dish (rid : int64) (r : Row) (db : Store) : Store :=
  let seq := Z.max (dishes_seq db) rid in
  match dishes db !! rid with
  | Some _ => with_dishes (dishes db) seq db
  | None =>
      if name_taken None (col_name r) (dishes db)
      then with_dishes (dishes db) seq db
      else with_dishes (<[rid := r]> (dishes db)) seq db
  end.

(** [UPDATE dishes SET name = ?, category_id = ?, availability = ?,
    stock = ? WHERE id = ?] with its parameters bound: [cursor.rowcount]
    and the new store, or the error. *)
Definition update_row (rid : int64) (r : Row) (db : Store) : Exn + Z * Store :=
  match dishes db !! rid with
  | None => inr (0, db)
  | Some _ =>
      if name_taken (Some rid) (col_name r) (dishes db) then inl unique_name_failed
      else inr (1, with_dishes (<[rid := r]> (dishes db)) (dishes_seq db) db)
  end.

(** An UPDATE that assigns no column of a unique index:
    [UPDATE dishes SET availability = 0 WHERE id = ?] and
    [UPDATE dishes SET stock = ? WHERE id = ?]. *)
Definition update_column (rid : int64) (f : Row → Row) (db : Store) : Z * Store :=
  match dishes db !! rid with
  | None => (0, db)
  | Some r => (1, with_dishes (<[rid := f r]> (dishes db)) (dishes_seq db) db)
  end.

(** [DELETE FROM dishes WHERE id = ?]. *)
Definition delete_row (rid : int64) (db : Store) : Z * Store :=
  match dishes db !! rid with
  | None => (0, db)
  | Some _ => (1, with_dishes (delete rid (dishes db)) (dishes_seq db) db)
  end.

(** *** Rows and the [Dish] model *)

(** How a Python [bool] is bound to a statement parameter. *)
Definition bind_bool (b : bool) : Z := if b then 1 else 0.

(** The parameters [(name, category_id, availability, stock)] of a dish,
    bound; [None] when an integer does not fit. *)
Definition Dish_row (dish : Dish) : option Row :=
  match bind (category_id dish), bind_optional (stock dish) with
  | Some category, Some stock' =>
      Some {| col_name := name dish; col_category_id := category;
              col_availability := bind_bool (availability dish);
              col_stock := stock' |}
  | _, _ => None
  end.

Definition json_optint (o : option Z) : Json :=
  match o with Some n => JInt n | None => JNull end.

(** [dish.dict()]. *)
Definition Dish_dict (dish : Dish) : list (string * Json) :=
  [("id", JInt (id dish)); ("name", JStr (name dish));
   ("category_id", JInt (category_id dish));
   ("availability", JBool (availability dish));
   ("stock", json_optint (stock dish))].

(** [dict(row)] for a [sqlite3.Row]: the stored values, [availability] as
    the integer it is. *)
Definition Row_dict (kr : int64 * Row) : list (string * Json) :=
  [("id", JInt kr.1); ("name", JStr (col_name kr.2));
   ("category_id", JInt (col_category_id kr.2));
   ("availability", JInt (col_availability kr.2));
   ("stock", json_optint (int64_Z <$> col_stock kr.2))].

(** [response_model=Dish]: the returned row is validated as a [Dish]; an
    integer is a valid [bool] only when it is 0 or 1. *)
Definition validate_Dish (kr : int64 * Row) : option Dish :=
  let mk b := {| id := kr.1; name := col_name kr.2;
                 category_id := col_category_id kr.2;
                 availability := b; stock := int64_Z <$> col_stock kr.2 |} in
  if bool_decide (col_availability kr.2 = 1) then Some (mk true)
  else if bool_decide (col_availability kr.2 = 0) then Some (mk false)
  else None.

Fixpoint validate_Dishes (rows : list (int64 * Row)) : option (list Dish) :=
  match rows with
  | [] => Some []
  | kr :: rows' =>
      match validate_Dish kr, validate_Dishes rows' with
      | Some d, Some ds => Some (d :: ds)
      | _, _ => None
      end
  end.

(** *** The handlers *)

(** [GET /dishes]: [WHERE 1=1] and one equality for every filter given. *)
Definition get_dishes (category_id : option Z) (availability : option bool)
    (db : Store) : Outcome * Store :=
  match bind_optional category_id with
  | None => (Unhandled too_large open_idle, db)
  | Some category =>
      let by_category (r : Row) :=
        match category with
        | Some c => bool_decide (col_category_id r = c)
        | None => true
        end in
      let by_availability (r : Row) :=
        match availability with
        | Some a => bool_decide (col_availability r = bind_bool a)
        | None => true
        end in
      let rows := select (λ _ r, by_category r && by_availability r) (dishes db) in
      match validate_Dishes rows with
      | Some ds => (JSONResponse (JList (JDict ∘ Dish_dict <$> ds)) HTTP_200_OK, db)
      | None => (Unhandled ResponseValidationError closed, db)
      end
  end.

(** [POST /dishes].  The SELECT binds the name and the category, the
    INSERT all four columns. *)
Definition add_dish (dish : Dish) (token : string) (db : Store) : Outcome * Store :=
  match bind (category_id dish) with
  | None => (Unhandled too_large open_idle, db)
  | Some category =>
      match select (λ _ r, bool_decide (col_name r = name dish)
                           && bool_decide (col_category_id r = category))
                   (dishes db) with
      | _ :: _ =>
          (HTTPException HTTP_400_BAD_REQUEST
             "Dish with this name already exists in the category", db)
      | [] =>
          match Dish_row dish with
          | None => (Unhandled too_large open_idle, db)
          | Some row =>
              match insert_dish row db with
              | inl e => (Unhandled e (after_failure e), db)
              | inr (dish_id, db') =>
                  (JSONResponse
                     (JDict [("message", JStr "Dish added successfully");
                             ("dish", JDict (dict_unpack [("id", JInt dish_id)]
                                                         (Dish_dict dish)))])
                     HTTP_201_CREATED, db')
              end
          end
      end
  end.

(** [PUT /dishes/{dish_id}]. *)
Definition update_dish (dish_id : Z) (updated_dish : Dish) (token : string)
    (db : Store) : Outcome * Store :=
  match Dish_row updated_dish, bind dish_id with
  | Some row, Some rid =>
      match update_row rid row db with
      | inl e => (Unhandled e (after_failure e), db)
      | inr (rowcount, db') =>
          if bool_decide (rowcount = 0)
          then (HTTPException HTTP_404_NOT_FOUND "Dish not found", db')
          else (JSONResponse
                  (JDict [("message", JStr "Dish updated successfully");
                          ("dish", JDict (Dish_dict updated_dish))])
                  HTTP_200_OK, db')
      end
  | _, _ => (Unhandled too_large open_idle, db)
  end.

(** [DELETE /dishes/{dish_id}]. *)
Definition delete_dish (dish_id : Z) (token : string) (db : Store)
  : Outcome * Store :=
  match bind dish_id with
  | None => (Unhandled too_large open_idle, db)
  | Some rid =>
      let '(rowcount, db') := delete_row rid db in
      if bool_decide (rowcount = 0)
      then (HTTPException HTTP_404_NOT_FOUND "Dish not found", db')
      else (JSONResponse (JDict [("message", JStr "Dish deleted successfully")])
              HTTP_200_OK, db')
  end.

(** [GET /dishes/{dish_id}]. *)
Definition get_dish_by_id (dish_id : Z) (db : Store) : Outcome * Store :=
  match bind dish_id with
  | None => (Unhandled too_large open_idle, db)
  | Some rid =>
      match dishes db !! rid with
      | None =>
          (HTTPException HTTP_404_NOT_FOUND
             ("Dish with ID " +:+ pretty dish_id +:+ " not found"), db)
      | Some r =>
          match validate_Dish (rid, r) with
          | Some d => (JSONResponse (JDict (Dish_dict d)) HTTP_200_OK, db)
          | None => (Unhandled ResponseValidationError closed, db)
          end
      end
  end.

Definition set_availability (a : Z) (r : Row) : Row :=
  {| col_name := col_name r; col_category_id := col_category_id r;
     col_availability := a; col_stock := col_stock r |}.

Definition set_stock (s : option int64) (r : Row) : Row :=
  {| col_name := col_name r; col_category_id := col_category_id r;
     col_availability := col_availability r; col_stock := s |}.

(** [PATCH /menu/dishes/{dish_id}/out-of-stock]. *)
Definition mark_dish_out_of_stock (dish_id : Z) (db : Store) : Outcome * Store :=
  match bind dish_id with
  | None => (Unhandled too_large open_idle, db)
  | Some rid =>
      let '(rowcount, db') := update_column rid (set_availability 0) db in
      if bool_decide (rowcount = 0)
      then (HTTPException HTTP_404_NOT_FOUND "Dish not found", db')
      else (JSONResponse
              (JDict [("message",
                       JStr ("Dish with ID " +:+ pretty dish_id
                             +:+ " marked as out of stock"))])
              HTTP_200_OK, db')
  end.

(** [PATCH /menu/dishes/{dish_id}/stock]. *)
Definition update_dish_stock (dish_id : Z) (stock : Z) (db : Store)
  : Outcome * Store :=
  match bind stock, bind dish_id with
  | Some stock', Some rid =>
      let '(rowcount, db') := update_column rid (set_stock (Some stock')) db in
      if bool_decide (rowcount = 0)
      then (HTTPException HTTP_404_NOT_FOUND "Dish not found", db')
      else (JSONResponse
              (JDict [("message",
                       JStr ("Stock for dish with ID " +:+ pretty dish_id
                             +:+ " updated to " +:+ pretty stock))])
              HTTP_200_OK, db')
  | _, _ => (Unhandled too_large open_idle, db)
  end.

(** [GET /admin/dishes/out-of-stock]. *)
Definition get_out_of_stock_dishes (token : string) (db : Store)
  : Outcome * Store :=
  match select (λ _ r, bool_decide (col_availability r = 0)) (dishes db) with
  | [] => (JSONResponse (JDict [("message", JStr "No out-of-stock dishes found")])
             HTTP_200_OK, db)
  | rows => (JSONResponse (JList (JDict ∘ Row_dict <$> rows)) HTTP_200_OK, db)
  end.

(** [GET /admin/reports/inventory]: one row of two counts; the row is
    never empty, so the "no data" branch of the source cannot be taken. *)
Definition inventory_counts (db : Store) : Z * Z :=
  (count (λ _ r, bool_decide (col_availability r = 1)) (dishes db),
   count (λ _ r, bool_decide (col_availability r = 0)) (dishes db)).

Definition get_inventory_report (token : string) (db : Store) : Outcome * Store :=
  let inventory_data := inventory_counts db in
  (JSONResponse (JDict [("in_stock", JInt inventory_data.1);
                        ("out_of_stock", JInt inventory_data.2)])
     HTTP_200_OK, db).

(** [POST /token]: the user name comes back as the token. *)
Definition token_generate (username : string) (db : Store) : Outcome * Store :=
  (JSONResponse (JDict [("access_token", JStr username);
                        ("token_type", JStr "bearer")]) HTTP_200_OK, db).

(** *** The bearer-token dependency

    [oauth_scheme = OAuth2PasswordBearer(tokenUrl="token")].  The class is
    the web framework's; what it does when called on a request is written
    out here: the [Authorization] header is split at its first space into a
    scheme and a parameter, and the parameter is the token when the header
    is there and the scheme is "bearer" in any letter case. *)

Definition lower_ascii (c : ascii) : ascii :=
  let n := nat_of_ascii c in
  if ((65 <=? n) && (n <=? 90))%nat then ascii_of_nat (n + 32) else c.

Fixpoint lower (s : string) : string :=
  match s with
  | EmptyString => EmptyString
  | String c s' => String (lower_ascii c) (lower s')
  end.

(** [s.partition(" ")], without the separator. *)
Fixpoint partition_space (s : string) : string * string :=
  match s with
  | EmptyString => (EmptyString, EmptyString)
  | String c s' =>
      if bool_decide (c = " "%char) then (EmptyString, s')
      else let '(scheme, param) := partition_space s' in (String c scheme, param)
  end.

Definition get_authorization_scheme_param (authorization : option string)
  : string * string :=
  match authorization with
  | None | Some EmptyString => (EmptyString, EmptyString)
  | Some value => partition_space value
  end.

Definition oauth_scheme (authorization : option string) : Outcome + string :=
  let '(scheme, param) := get_authorization_scheme_param authorization in
  match authorization with
  | None | Some EmptyString =>
      inl (HTTPException HTTP_401_UNAUTHORIZED "Not authenticated")
  | Some _ =>
      if bool_decide (lower scheme = "bearer") then inr param
      else inl (HTTPException HTTP_401_UNAUTHORIZED "Not authenticated")
  end.

(** [token: str = Depends(oauth_scheme)]: the dependency is resolved first;
    when it raises, the handler is not called. *)
Definition Depends (dependency : option string → Outcome + string)
    (handler : string → Store → Outcome * Store)
    (authorization : option string) (db : Store) : Outcome * Store :=
  match dependency authorization with
  | inl exc => (exc, db)
  | inr token => handler token db
  end.

(** *** Start-up and the routes *)

Definition seed_categories : list (Z * string) :=
  [(1, "Appetizer"); (2, "Veg Curries"); (3, "Pickles"); (4, "Veg Fry");
   (5, "Dal"); (6, "Non Veg Curries"); (7, "Veg Rice"); (8, "Non-Veg Rice");
   (9, "Veg Pulusu"); (10, "Breads"); (11, "Desserts")].

Definition seed_dishes : list Dish :=
  [{| id := 1; name := "Onion Pakoda"; category_id := 1;
      availability := true; stock := Some 10 |};
   {| id := 2; name := "Mixed Veg Pakoda"; category_id := 1;
      availability := true; stock := Some 15 |}].

(** [INSERT OR IGNORE INTO categories (id, name) VALUES (?, ?)], with
    [name TEXT NOT NULL UNIQUE]. *)
Definition insert_or_ignore_category (cid : Z) (n : string) (db : Store) : Store :=
  match categories db !! cid with
  | Some _ => db
  | None =>
      if existsb (λ kn, bool_decide (kn.2 = n)) (map_to_list (categories db))
      then db
      else {| dishes := dishes db; dishes_seq := dishes_seq db;
              categories := <[cid := n]> (categories db) |}
  end.

(** The parameters [(id, name, category_id, availability, stock)] of a
    seed dish, bound. *)
Definition bind_Dish (dish : Dish) : option (int64 * Row) :=
  match bind (id dish), Dish_row dish with
  | Some rid, Some row => Some (rid, row)
  | _, _ => None
  end.

(** One seed dish of [startup].  The integers of the seed dishes are small
    constants, so the branch in which binding fails is not taken. *)
Definition seed_dish (db : Store) (dish : Dish) : Store :=
  match bind_Dish dish with
  | Some (rid, row) => insert_or_ignore_dish rid row db
  | None => db
  end.

(** [startup]: the tables are created when missing (an absent table and an
    empty one are the same store here), then the seed rows are inserted
    unless they are there. *)
Definition startup (db : Store) : Store :=
  let db1 := fold_left (λ acc kn, insert_or_ignore_category kn.1 kn.2 acc)
               seed_categories db in
  fold_left seed_dish seed_dishes db1.

(** The store of a database file that does not exist yet. *)
Definition empty_store : Store :=
  {| dishes := ∅; dishes_seq := 0; categories := ∅ |}.

(** A request: the route, the [Authorization] header where the route
    depends on it, and the validated parameters. *)
Inductive Request :=
| GET_dishes (category_id : option Z) (availability : option bool)
| POST_dishes (authorization : option string) (dish : Dish)
| PUT_dishes_id (authorization : option string) (dish_id : Z) (updated_dish : Dish)
| DELETE_dishes_id (authorization : option string) (dish_id : Z)
| GET_dishes_id (dish_id : Z)
| PATCH_out_of_stock (dish_id : Z)
| PATCH_stock (dish_id : Z) (stock : Z)
| GET_admin_out_of_stock (authorization : option string)
| GET_admin_inventory (authorization : option string)
| POST_token (username : string).

Definition app (req : Request) (db : Store) : Outcome * Store :=
  match req with
  | GET_dishes c a => get_dishes c a db
  | POST_dishes auth dish => Depends oauth_scheme (add_dish dish) auth db
  | PUT_dishes_id auth i dish => Depends oauth_scheme (update_dish i dish) auth db
  | DELETE_dishes_id auth i => Depends oauth_scheme (delete_dish i) auth db
  | GET_dishes_id i => get_dish_by_id i db
  | PATCH_out_of_stock i => mark_dish_out_of_stock i db
  | PATCH_stock i s => update_dish_stock i s db
  | GET_admin_out_of_stock auth => Depends oauth_scheme get_out_of_stock_dishes auth db
  | GET_admin_inventory auth => Depends oauth_scheme get_inventory_report auth db
  | POST_token u => token_generate u db
  end.

(** The stores the service can be in: the database file starts out absent,
    the process starts (any number of times) and serves requests.  The
    handlers above are read on a database whose write lock is free; what
    a held lock changes is written out with [serve] below, and by
    [serve_database] the databases of a process are among these
    stores. *)
Inductive reachable : Store → Prop :=
| reachable_empty : reachable empty_store
| reachable_startup db : reachable db → reachable (startup db)
| reachable_request req db : reachable db → reachable (app req db).2.

(** *** The process and the write lock

    A process serves its requests one after the other (no handler awaits
    anything), each on a connection of its own.  The connection a request
    leaves [open_writing] holds the write lock of the database file until
    the interpreter collects it.  That long the INSERT, UPDATE or DELETE
    of any other connection ends, once its busy timeout has run out, in
    the error "database is locked"; SELECTs are served as ever. *)
Record Process := {
  database : Store;
  write_locked : bool;
}.

(** Does the request get as far as running its INSERT, UPDATE or DELETE?
    Read off the outcome [o] the request has on the unlocked database:
    the dependency's 401, the 400 of [add_dish] and a parameter that
    cannot be bound come before the statement runs, every other path of a
    writing handler goes through it. *)
Definition executes_write (req : Request) (o : Outcome) : bool :=
  match req with
  | POST_dishes _ _ | PUT_dishes_id _ _ _ | DELETE_dishes_id _ _
  | PATCH_out_of_stock _ | PATCH_stock _ _ =>
      match o with
      | HTTPException status_code _ =>
          negb (bool_decide (status_code = HTTP_401_UNAUTHORIZED)
                || bool_decide (status_code = HTTP_400_BAD_REQUEST))
      | Unhandled (OverflowError _) _ => false
      | _ => true
      end
  | _ => false
  end.

Definition holds_write_lock (o : Outcome) : bool :=
  match o with
  | Unhandled _ open_writing => true
  | _ => false
  end.

(** One request, served by the process. *)
Definition serve (req : Request) (p : Process) : Outcome * Process :=
  let '(o, db') := app req (database p) in
  if write_locked p && executes_write req o
  then (Unhandled database_locked open_idle, p)
  else (o, {| database := db';
              write_locked := write_locked p || holds_write_lock o |}).

(** *** Notions the properties are stated with *)

(** Every row holds 0 or 1 in [availability], the two values a Python
    [bool] is bound as. *)
Definition availability_is_bool (db : Store) : Prop :=
  map_Forall (λ _ r, col_availability r = 0 ∨ col_availability r = 1) (dishes db).

(** The routes declared with [token: str = Depends(oauth_scheme)], each
    with the handler behind it. *)
Inductive token_gated :
  (option string → Request) → (string → Store → Outcome * Store) → Prop :=
| gated_add_dish dish :
    token_gated (λ auth, POST_dishes auth dish) (add_dish dish)
| gated_update_dish dish_id dish :
    token_gated (λ auth, PUT_dishes_id auth dish_id dish) (update_dish dish_id dish)
| gated_delete_dish dish_id :
    token_gated (λ auth, DELETE_dishes_id auth dish_id) (delete_dish dish_id)
| gated_get_out_of_stock_dishes :
    token_gated GET_admin_out_of_stock get_out_of_stock_dishes
| gated_get_inventory_report :
    token_gated GET_admin_inventory get_inventory_report.

(** *** Runs of the service *)

(** What happens over time: the process starts, a request is served, or
    the interpreter collects the connections that failed requests left
    open. *)
Inductive Event :=
| Start
| Serve (req : Request)
| Collect.

(** The events on the database alone, with the write lock free. *)
Definition step (db : Store) (ev : Event) : Store :=
  match ev with
  | Start => startup db
  | Serve req => (app req db).2
  | Collect => db
  end.

Definition run (evs : list Event) (db : Store) : Store := fold_left step evs db.

(** The events on the process.  A process that starts has no connection
    of an earlier one to wait for: those ended with their process. *)
Definition process_step (p : Process) (ev : Event) : Process :=
  match ev with
  | Start => {| database := startup (database p); write_locked := false |}
  | Serve req => (serve req p).2
  | Collect => {| database := database p; write_locked := false |}
  end.

Definition process_run (evs : list Event) (p : Process) : Process :=
  fold_left process_step evs p.

(** The process before its first start, on an absent database file. *)
Definition new_process : Process :=
  {| database := empty_store; write_locked := false |}.

(** No two rows of [dishes] carry the same name. *)
Definition names_unique (db : Store) : Prop :=
  ∀ k1 k2 r1 r2,
    dishes db !! k1 = Some r1 → dishes db !! k2 = Some r2 →
    col_name r1 = col_name r2 → k1 = k2.

(** The AUTOINCREMENT counter is at least every rowid of the table. *)
Definition rowids_counted (db : Store) : Prop :=
  map_Forall (λ (k : int64) _, int64_Z k ≤ dishes_seq db) (dishes db).

(** The filters of [get_dishes], on a [Dish]. *)
Definition matches_filters (category : option Z) (available : option bool)
    (dish : Dish) : Prop :=
  (∀ c, category = Some c → category_id dish = c)
  ∧ (∀ a, available = Some a → availability dish = a).

(** What makes [INSERT OR IGNORE] leave the store as it is for a seed
    row: its key is taken, or its name is, and the AUTOINCREMENT counter
    has reached its key. *)
Definition dish_blocked (dish : Dish) (db : Store) : Prop :=
  match bind_Dish dish with
  | Some (rid, row) =>
      (is_Some (dishes db !! rid)
       ∨ name_taken None (col_name row) (dishes db) = true)
      ∧ int64_Z rid ≤ dishes_seq db
  | None => True
  end.

Definition category_blocked (kn : Z * string) (db : Store) : Prop :=
  is_Some (categories db !! kn.1)
  ∨ existsb (λ kn', bool_decide (kn'.2 = kn.2)) (map_to_list (categories db))
    = true.

(** The header gives no token to the dependency: it is absent or empty, or
    what stands before its first space is not "bearer" in any letter
    case. *)
Definition not_bearer (authorization : option string) : Prop :=
  match authorization with
  | None => True
  | Some value => value = "" ∨ lower (partition_space value).1 ≠ "bearer"
  end.

(** *** Sample requests *)

Definition dal_tadka : Dish :=
  {| id := 0; name := "Dal Tadka"; category_id := 5;
     availability := true; stock := Some 20 |}.

Definition onion_again : Dish :=
  {| id := 0; name := "Onion Pakoda"; category_id := 1;
     availability := false; stock := None |}.

Definition onion_elsewhere : Dish :=
  {| id := 0; name := "Onion Pakoda"; category_id := 2;
     availability := true; stock := Some 5 |}.

Definition rename_to_onion : Dish :=
  {| id := 2; name := "Onion Pakoda"; category_id := 1;
     availability := true; stock := Some 15 |}.

Definition dal_tadka_row : Row :=
  {| col_name := "Dal Tadka"; col_category_id := i64 5;
     col_availability := 1; col_stock := Some (i64 20) |}.

Definition onion_pakoda_row : Row :=
  {| col_name := "Onion Pakoda"; col_category_id := i64 1;
     col_availability := 1; col_stock := Some (i64 10) |}.

Definition mixed_veg_pakoda_row : Row :=
  {| col_name := "Mixed Veg Pakoda"; col_category_id := i64 1;
     col_availability := 1; col_stock := Some (i64 15) |}.

(** A dish whose category does not fit, and a store that has used up its
    rowids. *)
Definition huge_category : Dish :=
  {| id := 0; name := "Dal Tadka"; category_id := 2 ^ 63;
     availability := true; stock := Some 20 |}.

Definition huge_stock : Dish :=
  {| id := 0; name := "Dal Tadka"; category_id := 5;
     availability := true; stock := Some (2 ^ 63) |}.

Definition full_store : Store :=
  {| dishes := ∅; dishes_seq := INT64_MAX; categories := ∅ |}.

(** The process right after its first start, and the same with the write
    lock held by a connection that a failed request left open. *)
Definition seeded : Process :=
  {| database := startup empty_store; write_locked := false |}.

Definition seeded_locked : Process :=
  {| database := startup empty_store; write_locked := true |}.

End main1.

Module users.

(** *** The data model *)

(** The table [users]: [username TEXT UNIQUE NOT NULL] and the password
    hash stored with it.  The [id] column is never read, so the table is
    the map from user name to hash. *)
Abbreviation Users := (gmap string string).

(** The payload of a credential: the two claims the service writes and
    reads.  Either may be missing from a token somebody else made. *)
Record Payload := {
  payload_username : option string;
  payload_exp : option Z;
}.

(** A token as it arrives: three segments that parse into a header with
    its [alg], a payload and a signature, or any other string. *)
Inductive Token :=
| JWS (alg : string) (payload : Payload) (signature : Z)
| Raw (s : string).

(** [not token]. *)
Definition not_token (token : Token) : bool :=
  match token with
  | Raw EmptyString => true
  | _ => false
  end.

Inductive Exn :=
| DecodeError
| InvalidAlgorithmError
| InvalidSignatureError
| ExpiredSignatureError
| KeyError (key : string).

(** [templates.TemplateResponse("index.html", {...})]: the context without
    the request, and the cookie set on the response. *)
Record Context := {
  message : option string;
  action : string;
  token : option Token;
  username : option string;
}.

Inductive Outcome :=
| TemplateResponse (context : Context) (set_cookie : option (string * Token))
| Unhandled (e : Exn).

Definition JWT_SECRET_KEY : string := "your_jwt_secret_key".

Section handlers.

(** The password hash of [werkzeug.security] and the HMAC-SHA256 of the
    token library are taken as they come.  Hashing draws a random salt,
    which is an argument here. *)
Variable check_password_hash : string → string → bool.
Variable generate_password_hash : string → string → string.
Variable HS256 : string → Payload → Z.

(** [jwt.encode(payload, key, algorithm='HS256')]. *)
Definition jwt_encode (payload : Payload) (key : string) : Token :=
  JWS "HS256" payload (HS256 key payload).

(** [jwt.decode(token, key, algorithms=['HS256'])] at the time [now]: the
    segments are parsed, then the signature is verified, then the
    expiration is checked. *)
Definition jwt_decode (token : Token) (key : string) (now : Z) : Exn + Payload :=
  match token with
  | Raw _ => inl DecodeError
  | JWS alg payload signature =>
      if negb (bool_decide (alg = "HS256")) then inl InvalidAlgorithmError
      else if negb (bool_decide (signature = HS256 key payload))
      then inl InvalidSignatureError
      else match payload_exp payload with
           | Some exp =>
               if bool_decide (exp ≤ now) then inl ExpiredSignatureError
               else inr payload
           | None => inr payload
           end
  end.

(** [create_jwt_token(username)], called at the time [utcnow]. *)
Definition create_jwt_token (username : string) (utcnow : Z) : Token :=
  let expiration_time := utcnow + 3600 in
  let payload := {| payload_username := Some username;
                    payload_exp := Some expiration_time |} in
  jwt_encode payload JWT_SECRET_KEY.

(** [POST /register]. *)
Definition post_register (username password salt : string) (db : Users)
  : Outcome * Users :=
  let hashed_password := generate_password_hash salt password in
  let '(message, db') :=
    match db !! username with
    | None => ("User registered successfully!", <[username := hashed_password]> db)
    | Some _ => ("Username already exists.", db)
    end in
  (TemplateResponse {| message := Some message; action := "register";
                       token := None; username := None |} None, db').

(** [POST /login]. *)
Definition post_login (username password : string) (utcnow : Z) (db : Users)
  : Outcome * Users :=
  match db !! username with
  | Some hash =>
      if check_password_hash hash password then
        let token := create_jwt_token username utcnow in
        (TemplateResponse {| message := Some "Login successful. Welcome!";
                             action := "change-password";
                             token := Some token; username := None |}
           (Some ("jwt_token", token)), db)
      else
        (TemplateResponse {| message := Some "Invalid username or password.";
                             action := "login"; token := None;
                             username := None |} None, db)
  | None =>
      (TemplateResponse {| message := Some "Invalid username or password.";
                           action := "login"; token := None;
                           username := None |} None, db)
  end.

Definition login_page (message : string) : Outcome :=
  TemplateResponse {| message := Some message; action := "login";
                      token := None; username := None |} None.

(** [GET /change-password]; the cookie may be absent. *)
Definition get_change_password (token : option Token) (now : Z) (db : Users)
  : Outcome * Users :=
  match token with
  | None => (login_page "Token is missing", db)
  | Some token =>
      if not_token token then (login_page "Token is missing", db)
      else
        match jwt_decode token JWT_SECRET_KEY now with
        | inl ExpiredSignatureError => (login_page "Expired token.", db)
        | inl e => (Unhandled e, db)
        | inr payload =>
            match payload_username payload with
            | None => (Unhandled (KeyError "username"), db)
            | Some username =>
                (TemplateResponse {| message := None; action := "change-password";
                                     token := None; username := Some username |}
                   None, db)
            end
        end
  end.

(** [POST /change-password]. *)
Definition post_change_password (current_password new_password : string)
    (token : Token) (salt : string) (now : Z) (db : Users) : Outcome * Users :=
  if not_token token then (login_page "Token is missing", db)
  else
    match jwt_decode token JWT_SECRET_KEY now with
    | inl ExpiredSignatureError => (login_page "Expired token.", db)
    | inl e => (Unhandled e, db)
    | inr payload =>
        match payload_username payload with
        | None => (Unhandled (KeyError "username"), db)
        | Some username =>
            let '(message, db') :=
              match db !! username with
              | Some hash =>
                  if check_password_hash hash current_password then
                    let hashed_new_password :=
                      generate_password_hash salt new_password in
                    ("Password changed successfully.",
                     <[username := hashed_new_password]> db)
                  else ("Incorrect current password.", db)
              | None => ("Incorrect current password.", db)
              end in
            (TemplateResponse {| message := Some message;
                                 action := "change-password"; token := None;
                                 username := Some username |} None, db')
        end
    end.

(** [token: str = Cookie(None)]: the value of the cookie that has the name
    of the parameter, when the request carries one. *)
Definition Cookie (name : string) (cookies : list (string * Token))
  : option Token :=
  snd <$> List.find (λ c, bool_decide (c.1 = name)) cookies.

(** [GET /change-password] as a browser calls it, with its cookies. *)
Definition get_change_password_route (cookies : list (string * Token))
    (now : Z) (db : Users) : Outcome * Users :=
  get_change_password (Cookie "token" cookies) now db.

End handlers.

(** The page of [post_register] and the page of a failed login. *)
Definition register_page (message : string) : Outcome :=
  TemplateResponse {| message := Some message; action := "register";
                      token := None; username := None |} None.

Definition invalid_login_page : Outcome :=
  TemplateResponse {| message := Some "Invalid username or password.";
                      action := "login"; token := None; username := None |}
    None.

(** The cookies a browser holds after a response, starting from none. *)
Definition cookies_after (response : Outcome) : list (string * Token) :=
  match response with
  | TemplateResponse _ (Some cookie) => [cookie]
  | _ => []
  end.

(** *** Sample instances

    Stand-ins for the two libraries, to run the handlers on concrete
    requests: a "hash" that appends the salt and a "signature" that adds up
    lengths and the expiration. *)

Definition sample_generate_password_hash (salt password : string) : string :=
  password +:+ "$" +:+ salt.

Definition sample_check_password_hash (pwhash password : string) : bool :=
  String.prefix (password +:+ "$") pwhash.

Definition sample_HS256 (key : string) (payload : Payload) : Z :=
  Z.of_nat (String.length key)
  + Z.of_nat (String.length (default "" (payload_username payload)))
  + default 0 (payload_exp payload).

Definition sample_users : Users :=
  {[ "alice" := sample_generate_password_hash "pepper" "wonderland" ]}.

End users.

(** * SQLite integers *)

Module Int64Facts.

Lemma int64_range (k : int64) : INT64_MIN ≤ k ≤ INT64_MAX.
Proof.
  destruct k as [z H]. simpl. unfold fits_int64 in H.
  apply andb_prop_elim in H as [H1 H2].
  apply Is_true_eq_true, Z.leb_le in H1.
  apply negb_prop_elim in H2. rewrite Is_true_true, Z.ltb_lt in H2. lia.
Qed.

Lemma fits_int64_spec z : Is_true (fits_int64 z) ↔ INT64_MIN ≤ z ≤ INT64_MAX.
Proof.
  unfold fits_int64.
  rewrite andb_True, negb_True, !Is_true_true, Z.leb_le, Z.ltb_lt. lia.
Qed.

Lemma bind_Some z k : bind z = Some k → int64_Z k = z.
Proof. unfold bind. case_match; [|done]. by intros [= <-]. Qed.

Lemma bind_Some_iff z k : bind z = Some k ↔ int64_Z k = z.
Proof. split; [apply bind_Some|]. intros <-. apply bind_int64. Qed.

Lemma bind_None z : bind z = None ↔ ¬ Is_true (fits_int64 z).
Proof. unfold bind. by case_match. Qed.

Lemma bind_fits z :
  Is_true (fits_int64 z) → ∃ k, bind z = Some k ∧ int64_Z k = z.
Proof.
  intros H. destruct (bind z) as [k|] eqn:Hb.
  - exists k. split; [done|]. by apply bind_Some.
  - by apply bind_None in Hb.
Qed.

Lemma bind_optional_Some o o' :
  bind_optional o = Some o' → int64_Z <$> o' = o.
Proof.
  destruct o as [z|]; simpl.
  - destruct (bind z) as [k|] eqn:Hb; [|done]. intros [= <-]. simpl.
    f_equal. by apply bind_Some.
  - by intros [= <-].
Qed.

Lemma bind_optional_fits o :
  (∀ z, o = Some z → Is_true (fits_int64 z)) →
  ∃ o', bind_optional o = Some o' ∧ int64_Z <$> o' = o.
Proof.
  intros H. destruct o as [z|]; simpl.
  - destruct (bind_fits z (H z eq_refl)) as (k & -> & <-). by exists (Some k).
  - by exists None.
Qed.

End Int64Facts.

(** * Properties of the menu service *)

Module MenuSpec.
Import main1 Int64Facts.

(** ** What the SQL statements select *)

Section statements.
Implicit Types (t : gmap int64 Row) (P : int64 → Row → bool) (k : int64) (r : Row).

#[local] Instance rowid_le_total : Total (@rowid_le Row).
Proof. intros a b. unfold rowid_le. lia. Qed.

#[local] Instance rowid_le_trans : Transitive (@rowid_le Row).
Proof. intros a b c. unfold rowid_le. lia. Qed.

Lemma rows_Permutation t : rows t ≡ₚ map_to_list t.
Proof. apply merge_sort_Permutation. Qed.

Lemma elem_of_rows t k r : (k, r) ∈ rows t ↔ t !! k = Some r.
Proof. by rewrite rows_Permutation, elem_of_map_to_list. Qed.

Lemma length_rows t : length (rows t) = size t.
Proof. by rewrite rows_Permutation, length_map_to_list. Qed.

(** A scan meets every rowid once, in ascending order. *)
Lemma rows_ascending t :
  StronglySorted (λ a b : int64 * Row, int64_Z a.1 < int64_Z b.1) (rows t).
Proof.
  assert (NoDup (rows t).*1) as Hnodup.
  { rewrite rows_Permutation. apply NoDup_fst_map_to_list. }
  assert (StronglySorted rowid_le (rows t)) as Hsorted
    by (apply StronglySorted_merge_sort; apply _).
  induction Hsorted as [|a l _ IH Hall]; [constructor|].
  apply NoDup_cons in Hnodup as [Ha Hl].
  constructor; [by apply IH|].
  apply Forall_forall. intros b Hb.
  pose proof (proj1 (Forall_forall _ _) Hall b Hb) as Hle. unfold rowid_le in Hle.
  assert (int64_Z a.1 ≠ int64_Z b.1); [|lia].
  intros Heq%int64_Z_inj. apply Ha. rewrite Heq.
  by apply list_elem_of_fmap_2.
Qed.

Lemma filter_StronglySorted {A} (R : relation A) (f : A → bool) (l : list A) :
  StronglySorted R l → StronglySorted R (List.filter f l).
Proof.
  induction 1 as [|a l _ IH Hall]; simpl; [constructor|].
  destruct (f a); [|done]. constructor; [done|].
  apply Forall_forall. intros b [Hb _]%list_elem_of_In%filter_In.
  apply (proj1 (Forall_forall _ _) Hall). by apply list_elem_of_In.
Qed.

Lemma select_ascending P t :
  StronglySorted (λ a b : int64 * Row, int64_Z a.1 < int64_Z b.1) (select P t).
Proof. apply filter_StronglySorted, rows_ascending. Qed.

Lemma elem_of_select P t k r :
  (k, r) ∈ select P t ↔ t !! k = Some r ∧ P k r = true.
Proof.
  unfold select. rewrite list_elem_of_In, filter_In, <- list_elem_of_In.
  by rewrite elem_of_rows.
Qed.

Lemma select_nil P t :
  select P t = [] ↔ ∀ k r, t !! k = Some r → P k r = false.
Proof.
  split.
  - intros Hnil k r Hk. destruct (P k r) eqn:HP; [|done].
    assert ((k, r) ∈ select P t) as Hin by (by apply elem_of_select).
    rewrite Hnil in Hin. by apply not_elem_of_nil in Hin.
  - intros Hall. destruct (select P t) as [|[k r] rows] eqn:Hsel; [done|].
    assert ((k, r) ∈ select P t) as Hin by (rewrite Hsel; left).
    apply elem_of_select in Hin as [Hk HP]. rewrite (Hall k r Hk) in HP. done.
Qed.

Lemma select_cons P t k r :
  t !! k = Some r → P k r = true → ∃ kr rows, select P t = kr :: rows.
Proof.
  intros Hk HP. destruct (select P t) as [|kr rows] eqn:Hsel; [|by eauto].
  rewrite (proj1 (select_nil P t) Hsel k r Hk) in HP. done.
Qed.

Lemma name_taken_false self n t :
  name_taken self n t = false ↔
  ∀ k r, t !! k = Some r → col_name r = n → Some k = self.
Proof.
  unfold name_taken.
  destruct (select _ t) as [|kr rows] eqn:Hsel.
  - split; [|done]. intros _ k r Hk Hn.
    pose proof (proj1 (select_nil _ t) Hsel k r Hk) as HP. simpl in HP.
    rewrite (bool_decide_eq_true_2 _ Hn) in HP. simpl in HP.
    apply bool_decide_eq_false in HP. by apply dec_stable.
  - split; [done|]. intros Hall. destruct kr as [k r].
    assert ((k, r) ∈ select (λ k r, bool_decide (col_name r = n)
                                     && bool_decide (Some k ≠ self)) t) as Hin
      by (rewrite Hsel; left).
    apply elem_of_select in Hin as [Hk HP].
    apply andb_true_iff in HP as [Hn Hself].
    apply bool_decide_eq_true in Hn, Hself.
    destruct Hself. by eapply Hall.
Qed.

Lemma name_taken_true self n t k r :
  t !! k = Some r → col_name r = n → Some k ≠ self → name_taken self n t = true.
Proof.
  intros Hk Hn Hself. destruct (name_taken self n t) eqn:Htaken; [done|].
  destruct Hself. by eapply name_taken_false.
Qed.

Lemma max_rowid_ge t k r : t !! k = Some r → int64_Z k ≤ max_rowid t.
Proof.
  rewrite <- elem_of_map_to_list. unfold max_rowid.
  induction (map_to_list t) as [|[k' r'] l IH]; simpl.
  - by intros ?%not_elem_of_nil.
  - intros [[= -> ->]|Hin]%elem_of_cons; [lia|]. specialize (IH Hin). lia.
Qed.

Lemma next_rowid_fresh db rid :
  bind (next_rowid db) = Some rid → dishes db !! rid = None.
Proof.
  intros Hrid%bind_Some.
  destruct (dishes db !! rid) as [r|] eqn:Hk; [|done].
  apply max_rowid_ge in Hk. unfold next_rowid in Hrid. lia.
Qed.

End statements.

(** ** Binding a dish and reading it back *)

Lemma Dish_row_Some dish row :
  Dish_row dish = Some row →
  col_name row = name dish
  ∧ int64_Z (col_category_id row) = category_id dish
  ∧ col_availability row = bind_bool (availability dish)
  ∧ int64_Z <$> col_stock row = stock dish.
Proof.
  unfold Dish_row.
  destruct (bind (category_id dish)) as [c|] eqn:Hc; [|done].
  destruct (bind_optional (stock dish)) as [s|] eqn:Hs; [|done].
  intros [= <-]. simpl. split_and!; try done.
  - by apply bind_Some.
  - by apply bind_optional_Some.
Qed.

Lemma Dish_row_fits dish :
  Is_true (fits_int64 (category_id dish)) →
  (∀ s, stock dish = Some s → Is_true (fits_int64 s)) →
  ∃ row, Dish_row dish = Some row.
Proof.
  intros (c & Hc & _)%bind_fits (s & Hs & _)%bind_optional_fits.
  unfold Dish_row. rewrite Hc, Hs. by eexists.
Qed.

Lemma Dish_row_category dish row :
  Dish_row dish = Some row → bind (category_id dish) = Some (col_category_id row).
Proof.
  intros (_ & Hc & _)%Dish_row_Some. by apply bind_Some_iff.
Qed.

Lemma validate_Dish_row k dish row :
  Dish_row dish = Some row →
  validate_Dish (k, row) =
  Some {| id := k; name := name dish; category_id := category_id dish;
          availability := availability dish; stock := stock dish |}.
Proof.
  intros (Hn & Hc & Ha & Hs)%Dish_row_Some. unfold validate_Dish. simpl.
  rewrite Hn, Hc, Ha, Hs. by destruct (availability dish).
Qed.


(** ** The process *)

Lemma Depends_accepts handler authorization token db :
  oauth_scheme authorization = inr token →
  Depends oauth_scheme handler authorization db = handler token db.
Proof. intros Hauth. unfold Depends. by rewrite Hauth. Qed.

(** With the write lock free, the process answers as the handler does, and
    the lock is taken when the request leaves a writing connection. *)
Lemma serve_unlocked req p :
  write_locked p = false →
  serve req p
  = ((app req (database p)).1,
     {| database := (app req (database p)).2;
        write_locked := holds_write_lock (app req (database p)).1 |}).
Proof.
  intros Hp. unfold serve. destruct (app req (database p)) as [o db'].
  by rewrite Hp.
Qed.

Lemma serve_unlocked_response req p content status_code db' :
  write_locked p = false →
  app req (database p) = (JSONResponse content status_code, db') →
  serve req p
  = (JSONResponse content status_code,
     {| database := db'; write_locked := false |}).
Proof. intros Hp Happ. by rewrite serve_unlocked, Happ. Qed.

Lemma serve_unlocked_exception req p status_code detail db' :
  write_locked p = false →
  app req (database p) = (HTTPException status_code detail, db') →
  serve req p
  = (HTTPException status_code detail,
     {| database := db'; write_locked := false |}).
Proof. intros Hp Happ. by rewrite serve_unlocked, Happ. Qed.

(** ** Missing rows: update and delete *)




(** ** Duplicates *)

(** C3.  Adding a dish whose name and category are those of a row of the
    table fails with 400 and changes nothing; the table keeps its number
    of rows. *)
Theorem add_dish_duplicate_pair dish token db k r :
  dishes db !! k = Some r →
  col_name r = name dish →
  col_category_id r = category_id dish :> Z →
  add_dish dish token db
    = (HTTPException HTTP_400_BAD_REQUEST
         "Dish with this name already exists in the category", db)
  ∧ size (dishes (add_dish dish token db).2) = size (dishes db).
Proof.
  intros Hk Hn Hc.
  assert (add_dish dish token db
          = (HTTPException HTTP_400_BAD_REQUEST
               "Dish with this name already exists in the category", db)) as ->;
    [|done].
  unfold add_dish. rewrite (proj2 (bind_Some_iff _ _) Hc).
  destruct (select_cons (λ _ r', bool_decide (col_name r' = name dish)
                                 && bool_decide (col_category_id r' = col_category_id r))
              (dishes db) k r Hk) as (kr & rows & ->); [|done].
  by rewrite !bool_decide_eq_true_2.
Qed.

Lemma add_dish_duplicate_pair_witness :
  add_dish onion_again "alice" (startup empty_store)
    = (HTTPException HTTP_400_BAD_REQUEST
         "Dish with this name already exists in the category", startup empty_store)
  ∧ size (dishes (add_dish onion_again "alice" (startup empty_store)).2)
    = size (dishes (startup empty_store)).
Proof.
  apply (add_dish_duplicate_pair onion_again "alice" (startup empty_store)
           (i64 1) onion_pakoda_row);
    vm_compute; reflexivity.
Defined.

(** C10.  An update of an existing dish whose new name is the name of
    another row ends in an error nobody catches, never in the 400 of
    [add_dish], and nothing is written.  With a [category_id] and a
    [stock] that SQLite can hold, the error is the one of the unique name
    in the store, and the connection is left open in its write
    transaction; with one that it cannot hold, the binding fails first. *)
Theorem update_dish_duplicate_name (dish_id : int64) updated_dish token db r k r' :
  dishes db !! dish_id = Some r →
  dishes db !! k = Some r' →
  k ≠ dish_id →
  col_name r' = name updated_dish →
  (∃ e connection,
     update_dish dish_id updated_dish token db = (Unhandled e connection, db))
  ∧ (∀ row, Dish_row updated_dish = Some row →
     update_dish dish_id updated_dish token db
     = (Unhandled unique_name_failed open_writing, db))
  ∧ ∀ detail, (update_dish dish_id updated_dish token db).1
              ≠ HTTPException HTTP_400_BAD_REQUEST detail.
Proof.
  intros Hid Hk Hne Hn.
  assert (∀ row, Dish_row updated_dish = Some row →
            update_dish dish_id updated_dish token db
            = (Unhandled unique_name_failed open_writing, db)) as Hrow.
  { intros row Hrow. unfold update_dish, update_row.
    rewrite Hrow, bind_int64, Hid.
    apply Dish_row_Some in Hrow as (Hname & _).
    rewrite (name_taken_true (Some dish_id) (col_name row) (dishes db) k r');
      [done|done|congruence|congruence]. }
  destruct (Dish_row updated_dish) as [row|] eqn:Hdish.
  - rewrite (Hrow row eq_refl). split_and!; [by eauto|done|done].
  - assert (update_dish dish_id updated_dish token db
            = (Unhandled too_large open_idle, db)) as ->
      by (unfold update_dish; by rewrite Hdish).
    split_and!; [by eauto|done|done].
Qed.

Lemma update_dish_duplicate_name_witness :
  (∃ e connection,
     update_dish (i64 2) rename_to_onion "alice" (startup empty_store)
     = (Unhandled e connection, startup empty_store))
  ∧ (∀ row, Dish_row rename_to_onion = Some row →
     update_dish (i64 2) rename_to_onion "alice" (startup empty_store)
     = (Unhandled unique_name_failed open_writing, startup empty_store))
  ∧ ∀ detail, (update_dish (i64 2) rename_to_onion "alice"
                 (startup empty_store)).1
              ≠ HTTPException HTTP_400_BAD_REQUEST detail.
Proof.
  apply (update_dish_duplicate_name (i64 2) rename_to_onion "alice"
           (startup empty_store) mixed_veg_pakoda_row (i64 1) onion_pakoda_row);
    [vm_compute; reflexivity | vm_compute; reflexivity | | reflexivity].
  intros [=].
Defined.

(** ** Adding a dish *)

Lemma dict_unpack_Dish_dict dish_id dish :
  dict_unpack [("id", JInt dish_id)] (Dish_dict dish) = Dish_dict dish.
Proof. reflexivity. Qed.

Lemma insert_dish_fresh_name r db rid :
  bind (next_rowid db) = Some rid →
  (∀ k r', dishes db !! k = Some r' → col_name r' ≠ col_name r) →
  insert_dish r db
  = inr (rid, with_dishes (<[rid := r]> (dishes db)) rid db).
Proof.
  intros Hrid Hfresh. unfold insert_dish. rewrite Hrid.
  assert (name_taken None (col_name r) (dishes db) = false) as ->; [|done].
  apply name_taken_false. intros k r' Hk Hn. by destruct (Hfresh k r' Hk).
Qed.

(** What [add_dish] does with a name that no row carries, when every
    integer fits. *)
Lemma add_dish_inserts dish token db :
  (∀ k r, dishes db !! k = Some r → col_name r ≠ name dish) →
  Is_true (fits_int64 (category_id dish)) →
  (∀ s, stock dish = Some s → Is_true (fits_int64 s)) →
  Is_true (fits_int64 (next_rowid db)) →
  ∃ (rid : int64) row,
    int64_Z rid = next_rowid db
    ∧ Dish_row dish = Some row
    ∧ dishes db !! rid = None
    ∧ insert_dish row db
      = inr (rid, with_dishes (<[rid := row]> (dishes db)) rid db)
    ∧ add_dish dish token db
      = (JSONResponse (JDict [("message", JStr "Dish added successfully");
                              ("dish", JDict (Dish_dict dish))])
           HTTP_201_CREATED,
         with_dishes (<[rid := row]> (dishes db)) rid db).
Proof.
  intros Hfresh Hc Hs (rid & Hrid & Hnext)%bind_fits.
  destruct (Dish_row_fits dish Hc Hs) as [row Hrow].
  pose proof (Dish_row_Some _ _ Hrow) as (Hname & _).
  assert (insert_dish row db
          = inr (rid, with_dishes (<[rid := row]> (dishes db)) rid db)) as Hins.
  { apply insert_dish_fresh_name; [done|]. by rewrite Hname. }
  exists rid, row. split_and!; try done.
  - by apply next_rowid_fresh.
  - unfold add_dish. rewrite (Dish_row_category _ _ Hrow).
    assert (select (λ _ r, bool_decide (col_name r = name dish)
                           && bool_decide (col_category_id r = col_category_id row))
              (dishes db) = []) as ->.
    { apply select_nil. intros k r Hk.
      by rewrite (bool_decide_eq_false_2 _ (Hfresh k r Hk)). }
    by rewrite Hrow, Hins.
Qed.




(** The [dish] of a 201 answer is the submitted record, [id] included:
    unpacking [dish.dict()] after the "id" item stores the submitted id
    over the rowid. *)
Lemma add_dish_created_content dish token db content db' :
  add_dish dish token db = (JSONResponse content HTTP_201_CREATED, db') →
  content = JDict [("message", JStr "Dish added successfully");
                   ("dish", JDict (Dish_dict dish))].
Proof.
  unfold add_dish. repeat case_match; intros [= <- <-]; reflexivity.
Qed.

(** C2 at a concrete request.  On the seeded store the dish is stored
    under rowid 3 and the answer is 201, but the [id] in the answer is the
    0 that was submitted; no row has that id. *)
Theorem add_dish_answers_submitted_id :
  ∃ db',
    Dish_row dal_tadka = Some dal_tadka_row
    ∧ insert_dish dal_tadka_row (startup empty_store) = inr (i64 3, db')
    ∧ add_dish dal_tadka "alice" (startup empty_store)
      = (JSONResponse
           (JDict [("message", JStr "Dish added successfully");
                   ("dish", JDict [("id", JInt 0); ("name", JStr "Dal Tadka");
                                   ("category_id", JInt 5);
                                   ("availability", JBool true);
                                   ("stock", JInt 20)])])
           HTTP_201_CREATED, db')
    ∧ dishes db' !! i64 3 = Some dal_tadka_row
    ∧ dishes db' !! i64 0 = None.
Proof. eexists. split_and!; vm_compute; reflexivity. Qed.

(** ** Marking a dish out of stock *)

Lemma set_availability_idemp a r :
  set_availability a (set_availability a r) = set_availability a r.
Proof. reflexivity. Qed.



(** ** The inventory report *)

Section inventory.

Local Abbreviation is_bool := (λ (_ : int64) (r : Row),
  col_availability r = 0 ∨ col_availability r = 1).

Lemma Dish_row_is_bool dish row :
  Dish_row dish = Some row →
  col_availability row = 0 ∨ col_availability row = 1.
Proof.
  intros (_ & _ & -> & _)%Dish_row_Some. destruct (availability dish); auto.
Qed.

(** [INSERT OR IGNORE] raises the counter and leaves the table, or puts
    the row under a key that was free with a name that was free. *)
Lemma insert_or_ignore_dish_spec (k : int64) row db :
  dishes_seq (insert_or_ignore_dish k row db) = Z.max (dishes_seq db) k
  ∧ categories (insert_or_ignore_dish k row db) = categories db
  ∧ (dishes (insert_or_ignore_dish k row db) = dishes db
     ∧ (is_Some (dishes db !! k)
        ∨ name_taken None (col_name row) (dishes db) = true)
     ∨ dishes (insert_or_ignore_dish k row db) = <[k := row]> (dishes db)
       ∧ dishes db !! k = None
       ∧ name_taken None (col_name row) (dishes db) = false).
Proof.
  unfold insert_or_ignore_dish.
  destruct (dishes db !! k) as [r|] eqn:Hk; [by eauto 6|].
  destruct (name_taken None (col_name row) (dishes db)); simpl; eauto 6.
Qed.

Lemma insert_or_ignore_dish_is_bool k row db :
  col_availability row = 0 ∨ col_availability row = 1 →
  availability_is_bool db →
  availability_is_bool (insert_or_ignore_dish k row db).
Proof.
  unfold availability_is_bool. intros Hrow Hdb.
  destruct (insert_or_ignore_dish_spec k row db)
    as (_ & _ & [[-> _]|(-> & _)]); [done|].
  by apply map_Forall_insert_2.
Qed.

Lemma seed_dish_is_bool dish db :
  availability_is_bool db → availability_is_bool (seed_dish db dish).
Proof.
  intros Hdb. unfold seed_dish, bind_Dish.
  destruct (bind (id dish)) as [rid|]; [|done].
  destruct (Dish_row dish) as [row|] eqn:Hrow; [|done].
  apply insert_or_ignore_dish_is_bool; [|done]. by eapply Dish_row_is_bool.
Qed.

Lemma insert_or_ignore_category_dishes k n db :
  dishes (insert_or_ignore_category k n db) = dishes db.
Proof. unfold insert_or_ignore_category. by repeat case_match. Qed.

Lemma seed_categories_dishes l db :
  dishes (fold_left (λ acc kn, insert_or_ignore_category kn.1 kn.2 acc) l db)
  = dishes db.
Proof.
  revert db. induction l as [|kn l IH]; intros db; [done|]. simpl.
  by rewrite IH, insert_or_ignore_category_dishes.
Qed.

Lemma startup_is_bool db :
  availability_is_bool db → availability_is_bool (startup db).
Proof.
  intros Hdb. unfold startup.
  assert (availability_is_bool
            (fold_left (λ acc kn, insert_or_ignore_category kn.1 kn.2 acc)
               seed_categories db)) as Hdb1.
  { unfold availability_is_bool. by rewrite seed_categories_dishes. }
  revert Hdb1. generalize (fold_left
    (λ acc kn, insert_or_ignore_category kn.1 kn.2 acc) seed_categories db).
  induction seed_dishes as [|d ds IH]; intros db1 Hdb1; [done|].
  simpl. by apply IH, seed_dish_is_bool.
Qed.

Lemma add_dish_is_bool dish token db :
  availability_is_bool db → availability_is_bool (add_dish dish token db).2.
Proof.
  unfold availability_is_bool, add_dish, insert_dish. intros Hdb.
  repeat case_match; simplify_eq; try done.
  simpl. apply map_Forall_insert_2; [by eapply Dish_row_is_bool | done].
Qed.

Lemma update_dish_is_bool dish_id dish token db :
  availability_is_bool db →
  availability_is_bool (update_dish dish_id dish token db).2.
Proof.
  unfold availability_is_bool, update_dish, update_row. intros Hdb.
  repeat case_match; simplify_eq; try done.
  simpl. apply map_Forall_insert_2; [by eapply Dish_row_is_bool | done].
Qed.

Lemma delete_dish_is_bool dish_id token db :
  availability_is_bool db → availability_is_bool (delete_dish dish_id token db).2.
Proof.
  unfold availability_is_bool, delete_dish, delete_row. intros Hdb.
  repeat case_match; simplify_eq; try done.
  simpl. by apply map_Forall_delete.
Qed.

Lemma mark_dish_out_of_stock_is_bool dish_id db :
  availability_is_bool db →
  availability_is_bool (mark_dish_out_of_stock dish_id db).2.
Proof.
  unfold availability_is_bool, mark_dish_out_of_stock, update_column. intros Hdb.
  repeat case_match; simplify_eq; try done.
  simpl. apply map_Forall_insert_2; [simpl; auto | done].
Qed.

Lemma update_dish_stock_is_bool dish_id stock db :
  availability_is_bool db →
  availability_is_bool (update_dish_stock dish_id stock db).2.
Proof.
  unfold availability_is_bool, update_dish_stock, update_column. intros Hdb.
  destruct (bind stock) as [stock'|]; [|done].
  destruct (bind dish_id) as [rid|]; [|done].
  destruct (dishes db !! rid) as [r|] eqn:Hk; [|done].
  case_bool_decide; [done|]. simpl. apply map_Forall_insert_2; [|done].
  simpl. exact (map_Forall_lookup_1 _ _ _ _ Hdb Hk).
Qed.

Lemma Depends_is_bool handler authorization db :
  (∀ token, availability_is_bool (handler token db).2) →
  availability_is_bool db →
  availability_is_bool (Depends oauth_scheme handler authorization db).2.
Proof. intros Hh Hdb. unfold Depends. by case_match. Qed.

Lemma app_is_bool req db :
  availability_is_bool db → availability_is_bool (app req db).2.
Proof.
  intros Hdb. destruct req; simpl;
    try (apply Depends_is_bool; [intros ?|done]);
    auto using add_dish_is_bool, update_dish_is_bool, delete_dish_is_bool,
      mark_dish_out_of_stock_is_bool, update_dish_stock_is_bool.
  - unfold get_dishes. by repeat case_match.
  - unfold get_dish_by_id. by repeat case_match.
  - unfold get_out_of_stock_dishes. by case_match.
Qed.

Lemma reachable_is_bool db : reachable db → availability_is_bool db.
Proof.
  induction 1 as [|db _ IH|req db _ IH].
  - apply map_Forall_empty.
  - by apply startup_is_bool.
  - by apply app_is_bool.
Qed.

(** Rows that hold 0 or 1 fall into exactly one of the two counts. *)
Lemma filter_bool_split (rows : list (int64 * Row)) :
  Forall (uncurry is_bool) rows →
  Z.of_nat (length (List.filter (λ kr, bool_decide (col_availability kr.2 = 1)) rows))
  + Z.of_nat (length (List.filter (λ kr, bool_decide (col_availability kr.2 = 0)) rows))
  = Z.of_nat (length rows).
Proof.
  induction 1 as [|[k r] rows [H0|H1] _ IH]; simpl in *; [done|..].
  - rewrite H0. simpl. lia.
  - rewrite H1. simpl. lia.
Qed.

Lemma inventory_counts_total db :
  availability_is_bool db →
  (inventory_counts db).1 + (inventory_counts db).2 = Z.of_nat (size (dishes db)).
Proof.
  intros Hdb. apply map_Forall_to_list in Hdb.
  rewrite <- rows_Permutation in Hdb. apply filter_bool_split in Hdb.
  unfold inventory_counts, count, select. simpl.
  by rewrite <- length_rows.
Qed.

End inventory.

(** C4.  In every store the service can reach, the two counts of the
    inventory report add up to the number of rows of [dishes]. *)
Theorem inventory_report_total token db :
  reachable db →
  ∃ in_stock out_of_stock,
    get_inventory_report token db
      = (JSONResponse (JDict [("in_stock", JInt in_stock);
                              ("out_of_stock", JInt out_of_stock)])
           HTTP_200_OK, db)
    ∧ in_stock + out_of_stock = Z.of_nat (size (dishes db)).
Proof.
  intros Hdb%reachable_is_bool. eexists _, _. split; [reflexivity|].
  by apply inventory_counts_total.
Qed.

Lemma inventory_report_total_witness :
  ∃ in_stock out_of_stock,
    get_inventory_report "alice"
      (app (PATCH_out_of_stock 1) (startup empty_store)).2
      = (JSONResponse (JDict [("in_stock", JInt in_stock);
                              ("out_of_stock", JInt out_of_stock)])
           HTTP_200_OK, (app (PATCH_out_of_stock 1) (startup empty_store)).2)
    ∧ in_stock + out_of_stock
      = Z.of_nat (size (dishes (app (PATCH_out_of_stock 1)
                                  (startup empty_store)).2)).
Proof.
  apply inventory_report_total.
  apply reachable_request, reachable_startup, reachable_empty.
Defined.

(** ** The bearer-token dependency *)

Lemma oauth_scheme_Bearer token :
  oauth_scheme (Some ("Bearer " +:+ token)) = inr token.
Proof. reflexivity. Qed.

Lemma oauth_scheme_raises authorization exc :
  oauth_scheme authorization = inl exc →
  exc = HTTPException HTTP_401_UNAUTHORIZED "Not authenticated".
Proof.
  unfold oauth_scheme. destruct (get_authorization_scheme_param _).
  repeat case_match; congruence.
Qed.

(** The dependency lets a request through exactly when the header is
    there, is not empty and has the scheme "bearer"; the token is what
    follows the first space, and may be empty. *)
Lemma oauth_scheme_accepts authorization token :
  oauth_scheme authorization = inr token ↔
  ∃ value, authorization = Some value ∧ value ≠ ""
           ∧ lower (partition_space value).1 = "bearer"
           ∧ token = (partition_space value).2.
Proof.
  unfold oauth_scheme, get_authorization_scheme_param. split.
  - destruct authorization as [[|c value]|]; [done| |done].
    destruct (partition_space (String c value)) as [scheme param] eqn:Hpart.
    case_bool_decide; [|done]. intros [= <-].
    exists (String c value). by rewrite Hpart.
  - intros (value & -> & Hne & Hscheme & ->).
    destruct value as [|c value]; [done|].
    destruct (partition_space (String c value)) as [scheme param].
    simpl in *. by rewrite bool_decide_eq_true_2.
Qed.

Lemma oauth_scheme_not_bearer authorization :
  not_bearer authorization →
  oauth_scheme authorization
  = inl (HTTPException HTTP_401_UNAUTHORIZED "Not authenticated").
Proof.
  unfold not_bearer, oauth_scheme, get_authorization_scheme_param.
  destruct authorization as [[|c value]|]; [done| |done].
  intros [?|Hscheme]; [done|].
  destruct (partition_space (String c value)) as [scheme param].
  simpl in *. by rewrite bool_decide_eq_false_2.
Qed.

Lemma handler_never_401 route handler token db detail :
  token_gated route handler →
  (handler token db).1 ≠ HTTPException HTTP_401_UNAUTHORIZED detail.
Proof.
  destruct 1.
  - unfold add_dish. by repeat case_match.
  - unfold update_dish. by repeat case_match.
  - unfold delete_dish. by repeat case_match.
  - unfold get_out_of_stock_dishes. by repeat case_match.
  - done.
Qed.




End MenuSpec.
(** * Properties of the identity service *)

Module IdentitySpec.
Import users.

Section credential.

Variable check_password_hash : string → string → bool.
Variable generate_password_hash : string → string → string.
Variable HS256 : string → Payload → Z.

Local Abbreviation jwt_encode := (jwt_encode HS256).
Local Abbreviation jwt_decode := (jwt_decode HS256).
Local Abbreviation create_jwt_token := (create_jwt_token HS256).
Local Abbreviation post_login := (post_login check_password_hash HS256).
Local Abbreviation get_change_password := (get_change_password HS256).
Local Abbreviation post_change_password :=
  (post_change_password check_password_hash generate_password_hash HS256).

(** ** Encoding and decoding *)

Lemma jwt_decode_encode payload key now :
  jwt_decode (jwt_encode payload key) key now
  = match payload_exp payload with
    | Some exp => if bool_decide (exp ≤ now) then inl ExpiredSignatureError
                  else inr payload
    | None => inr payload
    end.
Proof.
  unfold users.jwt_decode, users.jwt_encode.
  by rewrite !bool_decide_eq_true_2.
Qed.

Lemma jwt_decode_created username utcnow now :
  jwt_decode (create_jwt_token username utcnow) JWT_SECRET_KEY now
  = if bool_decide (utcnow + 3600 ≤ now) then inl ExpiredSignatureError
    else inr {| payload_username := Some username;
                payload_exp := Some (utcnow + 3600) |}.
Proof. unfold users.create_jwt_token. by rewrite jwt_decode_encode. Qed.

Lemma not_token_created username utcnow :
  not_token (create_jwt_token username utcnow) = false.
Proof. reflexivity. Qed.

(** A payload comes out of [jwt.decode] only for a token that carries the
    signature of the key and has not expired. *)
Lemma jwt_decode_valid token key now payload :
  jwt_decode token key now = inr payload →
  token = JWS "HS256" payload (HS256 key payload)
  ∧ ∀ exp, payload_exp payload = Some exp → now < exp.
Proof.
  unfold users.jwt_decode. destruct token as [alg p signature|raw]; [|done].
  repeat case_bool_decide; simpl; try done.
  - destruct (payload_exp p) as [exp|] eqn:Hexp.
    + case_bool_decide; [done|]. intros [= <-]. subst.
      split; [done|]. intros exp' Hexp'. simplify_eq. lia.
    + intros [= <-]. subst. split; [done|]. intros exp'. congruence.
Qed.

(** ** Login *)

(** C9.  A login with the name of a user of the table and a password the
    stored hash accepts hands out a credential, in the page and as the
    [jwt_token] cookie, that decodes under the signing secret, at any time
    before it expires, to the submitted user name and to an expiration
    3600 seconds after the time of the login. *)
Theorem login_credential username password utcnow db hash :
  db !! username = Some hash →
  check_password_hash hash password = true →
  ∃ token,
    post_login username password utcnow db
    = (TemplateResponse {| message := Some "Login successful. Welcome!";
                           action := "change-password";
                           token := Some token; username := None |}
         (Some ("jwt_token", token)), db)
    ∧ ∀ now, now < utcnow + 3600 →
        jwt_decode token JWT_SECRET_KEY now
        = inr {| payload_username := Some username;
                 payload_exp := Some (utcnow + 3600) |}.
Proof.
  intros Hdb Hcheck. eexists. split.
  - unfold users.post_login. rewrite Hdb, Hcheck. reflexivity.
  - intros now Hnow. rewrite jwt_decode_created.
    by rewrite bool_decide_eq_false_2 by lia.
Qed.

(** ** Changing the password *)

Lemma post_change_password_changed current_password new_password token salt now db :
  (post_change_password current_password new_password token salt now db).2 ≠ db →
  ∃ payload,
    jwt_decode token JWT_SECRET_KEY now = inr payload
    ∧ token = JWS "HS256" payload (HS256 JWT_SECRET_KEY payload)
    ∧ ∀ exp, payload_exp payload = Some exp → now < exp.
Proof.
  unfold users.post_change_password.
  destruct (not_token token); [done|].
  destruct (jwt_decode token JWT_SECRET_KEY now) as [e|payload] eqn:Hdec.
  - by destruct e.
  - intros _. exists payload. split; [done|]. by apply jwt_decode_valid.
Qed.

Lemma jwt_decode_expired token key now :
  jwt_decode token key now = inl ExpiredSignatureError → not_token token = false.
Proof. by destruct token as [|[|]]. Qed.

(** A credential that does not decode, for another reason than its age,
    is not handled: the exception of [jwt.decode] leaves both handlers. *)
Lemma change_password_raises current_password new_password token salt now db e :
  not_token token = false →
  jwt_decode token JWT_SECRET_KEY now = inl e →
  e ≠ ExpiredSignatureError →
  post_change_password current_password new_password token salt now db
    = (Unhandled e, db)
  ∧ get_change_password (Some token) now db = (Unhandled e, db).
Proof.
  intros Hnot Hdec He.
  unfold users.post_change_password, users.get_change_password.
  rewrite Hnot, Hdec. by destruct e.
Qed.


End credential.

Lemma login_credential_witness :
  ∃ token,
    post_login sample_check_password_hash sample_HS256
      "alice" "wonderland" 1000 sample_users
    = (TemplateResponse {| message := Some "Login successful. Welcome!";
                           action := "change-password";
                           token := Some token; username := None |}
         (Some ("jwt_token", token)), sample_users)
    ∧ ∀ now, now < 1000 + 3600 →
        jwt_decode sample_HS256 token JWT_SECRET_KEY now
        = inr {| payload_username := Some "alice";
                 payload_exp := Some (1000 + 3600) |}.
Proof.
  apply (login_credential sample_check_password_hash sample_HS256
           "alice" "wonderland" 1000 sample_users
           (sample_generate_password_hash "pepper" "wonderland"));
    vm_compute; reflexivity.
Defined.


(** C5 at concrete requests.  A credential that is no token at all, and
    one whose signature is wrong, are among the states that should lead to
    the login page.  Both handlers catch the error of an expired credential
    only: for these two, decoding raises an error that nobody catches, on
    POST and on GET, and the answer is no page. *)
Theorem change_password_invalid_credential :
  post_change_password sample_check_password_hash sample_generate_password_hash
    sample_HS256 "wonderland" "looking-glass" (Raw "not.a.token") "salt" 2000
    sample_users
  = (Unhandled DecodeError, sample_users)
  ∧ post_change_password sample_check_password_hash sample_generate_password_hash
      sample_HS256 "wonderland" "looking-glass"
      (JWS "HS256" {| payload_username := Some "alice";
                      payload_exp := Some 4600 |} 0)
      "salt" 2000 sample_users
    = (Unhandled InvalidSignatureError, sample_users)
  ∧ get_change_password sample_HS256 (Some (Raw "not.a.token")) 2000 sample_users
    = (Unhandled DecodeError, sample_users)
  ∧ get_change_password sample_HS256
      (Some (JWS "HS256" {| payload_username := Some "alice";
                            payload_exp := Some 4600 |} 0))
      2000 sample_users
    = (Unhandled InvalidSignatureError, sample_users)
  ∧ ∀ message, Unhandled DecodeError ≠ login_page message
               ∧ Unhandled InvalidSignatureError ≠ login_page message.
Proof. split_and!; try (vm_compute; reflexivity). intros message. split; discriminate. Qed.

End IdentitySpec.

(** * Further properties of the menu service *)

Module MenuExtra.
Import main1 Int64Facts MenuSpec.

(** ** Rows and dishes *)

Lemma bind_optional_int64 (o : option int64) :
  bind_optional (int64_Z <$> o) = Some o.
Proof. destruct o as [k|]; simpl; [|done]. by rewrite bind_int64. Qed.

Lemma bind_bool_inj a b : bind_bool a = bind_bool b → a = b.
Proof. by destruct a, b. Qed.

(** A row validates to a dish exactly when the dish has the id of the row
    and binds to the row. *)
Lemma validate_Dish_Some k r dish :
  validate_Dish (k, r) = Some dish ↔
  int64_Z k = id dish ∧ Dish_row dish = Some r.
Proof.
  split.
  - unfold validate_Dish. simpl. destruct r as [n c a s]. simpl.
    repeat case_bool_decide; intros [= <-]; subst; simpl;
      (split; [done|]); unfold Dish_row; simpl;
      by rewrite bind_int64, bind_optional_int64.
  - intros [Hk Hrow]. rewrite (validate_Dish_row k dish r Hrow).
    destruct dish. simpl in *. by rewrite Hk.
Qed.

Lemma validate_Dish_is_bool k r :
  col_availability r = 0 ∨ col_availability r = 1 →
  ∃ dish, validate_Dish (k, r) = Some dish.
Proof.
  unfold validate_Dish. simpl. intros [Ha|Ha]; rewrite Ha; simpl; eauto.
Qed.

Lemma validate_Dishes_is_bool (rows : list (int64 * Row)) :
  Forall (λ kr, col_availability kr.2 = 0 ∨ col_availability kr.2 = 1) rows →
  ∃ ds, validate_Dishes rows = Some ds
        ∧ Forall2 (λ kr dish, validate_Dish kr = Some dish) rows ds.
Proof.
  induction 1 as [|[k r] rows Hr _ (ds & Hds & Hall)]; simpl.
  - exists []. by split.
  - destruct (validate_Dish_is_bool k r Hr) as [d Hd]. rewrite Hd, Hds.
    exists (d :: ds). split; [done|]. by constructor.
Qed.

(** Validation keeps the rows in their order and number. *)
Lemma validated_ascending (rows : list (int64 * Row)) ds :
  Forall2 (λ kr dish, validate_Dish kr = Some dish) rows ds →
  StronglySorted (λ a b : int64 * Row, int64_Z a.1 < int64_Z b.1) rows →
  StronglySorted (λ d1 d2, id d1 < id d2) ds.
Proof.
  induction 1 as [|[k r] d rows ds Hd Hall IH]; intros Hsorted; [constructor|].
  apply StronglySorted_inv in Hsorted as [Hrows Hlt].
  constructor; [by apply IH|].
  apply validate_Dish_Some in Hd as [Hk _].
  clear IH Hrows. induction Hall as [|[k' r'] d' rows ds Hd' _ IH].
  - constructor.
  - apply Forall_cons in Hlt as [Hlt Hrest].
    apply validate_Dish_Some in Hd' as [Hk' _].
    constructor; [simpl in *; lia | by apply IH].
Qed.

Lemma validated_elem_of (rows : list (int64 * Row)) ds dish :
  Forall2 (λ kr dish, validate_Dish kr = Some dish) rows ds →
  dish ∈ ds ↔
  ∃ k row, (k, row) ∈ rows ∧ int64_Z k = id dish ∧ Dish_row dish = Some row.
Proof.
  induction 1 as [|[k r] d rows ds Hd _ IH].
  - split; [by intros ?%not_elem_of_nil|].
    by intros (k & row & ?%not_elem_of_nil & _).
  - rewrite elem_of_cons, IH. split.
    + intros [->|(k' & row & Hin & Hk & Hrow)].
      * apply validate_Dish_Some in Hd as [Hk Hrow].
        exists k, r. split_and!; [left|done|done].
      * exists k', row. split_and!; [by right|done|done].
    + intros (k' & row & [[= -> ->]|Hin]%elem_of_cons & Hk & Hrow).
      * left. assert (validate_Dish (k, r) = Some dish) as Hd'
          by (by apply validate_Dish_Some).
        congruence.
      * right. by exists k', row.
Qed.

(** ** Reading dishes *)

(** X1.  In a store the service can reach, [get_dishes] with a category
    filter that SQLite cannot hold ends in the [OverflowError] of the
    parameter binding.  With no category filter, or one that fits, it
    answers 200 with the dishes of the table that pass the filters given:
    each of them once, in ascending order of their ids, and no other. *)
Theorem get_dishes_matching category available db :
  reachable db →
  (∀ c, category = Some c → ¬ Is_true (fits_int64 c) →
   get_dishes category available db = (Unhandled too_large open_idle, db))
  ∧ ((∀ c, category = Some c → Is_true (fits_int64 c)) →
     ∃ ds,
       get_dishes category available db
         = (JSONResponse (JList (JDict ∘ Dish_dict <$> ds)) HTTP_200_OK, db)
       ∧ StronglySorted (λ d1 d2, id d1 < id d2) ds
       ∧ ∀ dish, dish ∈ ds ↔
           (∃ (k : int64) row,
              int64_Z k = id dish ∧ Dish_row dish = Some row
              ∧ dishes db !! k = Some row)
           ∧ matches_filters category available dish).
Proof.
  intros Hdb%reachable_is_bool. unfold get_dishes. split.
  - intros c -> Hc. simpl. by rewrite (proj2 (bind_None c) Hc).
  - intros (category' & -> & <-)%bind_optional_fits.
    destruct (validate_Dishes_is_bool
                (select (λ _ r,
                   match category' with
                   | Some c => bool_decide (col_category_id r = c)
                   | None => true
                   end
                   && match available with
                      | Some a => bool_decide (col_availability r = bind_bool a)
                      | None => true
                      end) (dishes db))) as (ds & -> & Hall).
    { apply Forall_forall. intros [k r] [Hk _]%elem_of_select.
      exact (map_Forall_lookup_1 _ _ _ _ Hdb Hk). }
    exists ds. split_and!; [done|..].
    { eapply validated_ascending; [done|]. apply select_ascending. }
    intros dish. rewrite (validated_elem_of _ _ _ Hall).
    unfold matches_filters. split.
    + intros (k & row & [Hk HP]%elem_of_select & Hid & Hrow).
      apply andb_true_iff in HP as [Hc Ha].
      apply Dish_row_Some in Hrow as Hfields.
      destruct Hfields as (_ & Hcrow & Harow & _).
      split; [by exists k, row|]. split.
      * intros c Hcs. destruct category' as [c'|]; [|done].
        apply bool_decide_eq_true in Hc. injection Hcs as <-.
        by rewrite <- Hcrow, Hc.
      * intros a ->. apply bool_decide_eq_true in Ha.
        apply bind_bool_inj. by rewrite <- Harow.
    + intros [(k & row & Hid & Hrow & Hk) [Hc Ha]].
      exists k, row. split_and!; [|done|done].
      apply elem_of_select. split; [done|].
      apply Dish_row_Some in Hrow as (_ & Hcrow & Harow & _).
      apply andb_true_iff. split.
      * destruct category' as [c'|]; [|done]. apply bool_decide_eq_true.
        apply int64_Z_inj. rewrite Hcrow. by apply Hc.
      * destruct available as [a|]; [|done]. apply bool_decide_eq_true.
        by rewrite Harow, (Ha a eq_refl).
Qed.

Lemma get_dishes_matching_witness :
  ∃ ds,
    get_dishes (Some 1) (Some true) (startup empty_store)
      = (JSONResponse (JList (JDict ∘ Dish_dict <$> ds)) HTTP_200_OK,
         startup empty_store)
    ∧ StronglySorted (λ d1 d2, id d1 < id d2) ds
    ∧ ∀ dish, dish ∈ ds ↔
        (∃ (k : int64) row,
           int64_Z k = id dish ∧ Dish_row dish = Some row
           ∧ dishes (startup empty_store) !! k = Some row)
        ∧ matches_filters (Some 1) (Some true) dish.
Proof.
  destruct (get_dishes_matching (Some 1) (Some true) (startup empty_store))
    as [_ Hfits].
  - apply reachable_startup, reachable_empty.
  - apply Hfits. intros c [= <-]. vm_compute. exact I.
Defined.

(** X2.  In a store the service can reach, [get_dish_by_id] ends in the
    [OverflowError] of the parameter binding for an id SQLite cannot
    hold; for an id that fits it either finds no row and answers 404 with
    a detail that names the id, or answers 200 with the dish stored under
    that id.  It never ends in an error of the response validation, and it
    writes nothing. *)
Theorem get_dish_by_id_answer dish_id db :
  reachable db →
  (¬ Is_true (fits_int64 dish_id)
   ∧ get_dish_by_id dish_id db = (Unhandled too_large open_idle, db))
  ∨ (∃ k : int64,
       int64_Z k = dish_id
       ∧ dishes db !! k = None
       ∧ get_dish_by_id dish_id db
         = (HTTPException HTTP_404_NOT_FOUND
              ("Dish with ID " +:+ pretty dish_id +:+ " not found"), db))
  ∨ (∃ (k : int64) dish row,
       int64_Z k = dish_id
       ∧ id dish = dish_id
       ∧ Dish_row dish = Some row
       ∧ dishes db !! k = Some row
       ∧ get_dish_by_id dish_id db
         = (JSONResponse (JDict (Dish_dict dish)) HTTP_200_OK, db)).
Proof.
  intros Hdb%reachable_is_bool. unfold get_dish_by_id.
  destruct (bind dish_id) as [k|] eqn:Hbind.
  - apply bind_Some in Hbind as Hk. right.
    destruct (dishes db !! k) as [r|] eqn:Hr; [right|left; by exists k].
    destruct (validate_Dish_is_bool k r
                (map_Forall_lookup_1 _ _ _ _ Hdb Hr)) as [dish Hdish].
    rewrite Hdish. apply validate_Dish_Some in Hdish as [Hid Hrow].
    exists k, dish, r. split_and!; try done. congruence.
  - left. split; [|done]. by apply bind_None.
Qed.

Lemma get_dish_by_id_answer_witness :
  (¬ Is_true (fits_int64 2)
   ∧ get_dish_by_id 2 (startup empty_store)
     = (Unhandled too_large open_idle, startup empty_store))
  ∨ (∃ k : int64,
       int64_Z k = 2
       ∧ dishes (startup empty_store) !! k = None
       ∧ get_dish_by_id 2 (startup empty_store)
         = (HTTPException HTTP_404_NOT_FOUND
              ("Dish with ID " +:+ pretty 2 +:+ " not found"),
            startup empty_store))
  ∨ (∃ (k : int64) dish row,
       int64_Z k = 2
       ∧ id dish = 2
       ∧ Dish_row dish = Some row
       ∧ dishes (startup empty_store) !! k = Some row
       ∧ get_dish_by_id 2 (startup empty_store)
         = (JSONResponse (JDict (Dish_dict dish)) HTTP_200_OK,
            startup empty_store)).
Proof.
  apply get_dish_by_id_answer. apply reachable_startup, reachable_empty.
Defined.

(** ** Writing dishes *)

Lemma size_delete_Some (t : gmap int64 Row) k r :
  t !! k = Some r → size t = S (size (delete k t)).
Proof.
  intros Hk. rewrite <- (insert_id t k r Hk) at 1.
  rewrite <- insert_delete_eq. apply map_size_insert_None, lookup_delete_eq.
Qed.









(** X7.  A 201 from [add_dish] means exactly one new row: the submitted
    integers fit, no row carried the name before, the rowid was free, the
    table is the old one with the submitted fields stored under that
    rowid, it has one row more, and the AUTOINCREMENT counter is the new
    rowid. *)
Theorem add_dish_created dish token db content db' :
  add_dish dish token db = (JSONResponse content HTTP_201_CREATED, db') →
  ∃ (rid : int64) row,
    int64_Z rid = next_rowid db
    ∧ Dish_row dish = Some row
    ∧ (∀ k r, dishes db !! k = Some r → col_name r ≠ name dish)
    ∧ dishes db !! rid = None
    ∧ dishes db' = <[rid := row]> (dishes db)
    ∧ size (dishes db') = S (size (dishes db))
    ∧ dishes_seq db' = next_rowid db
    ∧ categories db' = categories db.
Proof.
  unfold add_dish, insert_dish.
  destruct (bind (category_id dish)) as [category|]; [|done].
  destruct (select _ (dishes db)); [|done].
  destruct (Dish_row dish) as [row|] eqn:Hrow; [|done].
  destruct (bind (next_rowid db)) as [rid|] eqn:Hrid; [|done].
  destruct (name_taken None (col_name row) (dishes db)) eqn:Htaken; [done|].
  intros [= <- <-]. exists rid, row. simpl.
  pose proof (next_rowid_fresh _ _ Hrid) as Hfree.
  pose proof (Dish_row_Some _ _ Hrow) as (Hname & _).
  split_and!; try done.
  - by apply bind_Some.
  - intros k r Hk Hn.
    by pose proof (proj1 (name_taken_false _ _ _) Htaken k r Hk
                     (eq_trans Hn (eq_sym Hname))).
  - by apply map_size_insert_None.
  - by apply bind_Some.
Qed.

Lemma add_dish_created_witness :
  ∃ (rid : int64) row,
    int64_Z rid = next_rowid (startup empty_store)
    ∧ Dish_row dal_tadka = Some row
    ∧ (∀ k r, dishes (startup empty_store) !! k = Some r →
              col_name r ≠ name dal_tadka)
    ∧ dishes (startup empty_store) !! rid = None
    ∧ dishes (add_dish dal_tadka "alice" (startup empty_store)).2
      = <[rid := row]> (dishes (startup empty_store))
    ∧ size (dishes (add_dish dal_tadka "alice" (startup empty_store)).2)
      = S (size (dishes (startup empty_store)))
    ∧ dishes_seq (add_dish dal_tadka "alice" (startup empty_store)).2
      = next_rowid (startup empty_store)
    ∧ categories (add_dish dal_tadka "alice" (startup empty_store)).2
      = categories (startup empty_store).
Proof.
  apply (add_dish_created dal_tadka "alice" (startup empty_store)
           (JDict [("message", JStr "Dish added successfully");
                   ("dish", JDict (Dish_dict dal_tadka))])).
  vm_compute. reflexivity.
Defined.

(** ** What a failed request leaves behind *)

Lemma app_failure_writes_nothing req db :
  (∀ content status_code, (app req db).1 ≠ JSONResponse content status_code) →
  (app req db).2 = db
  ∧ ∀ e connection,
      (app req db).1 = Unhandled e connection →
      ((e = too_large ∨ e = database_full) ∧ connection = open_idle)
      ∨ (e = unique_name_failed ∧ connection = open_writing
         ∧ executes_write req (Unhandled e connection) = true)
      ∨ (e = ResponseValidationError ∧ connection = closed).
Proof.
  destruct req; simpl;
    unfold Depends, get_dishes, add_dish, insert_dish, update_dish, update_row,
      delete_dish, delete_row, get_dish_by_id, mark_dish_out_of_stock,
      update_dish_stock, update_column, get_out_of_stock_dishes,
      get_inventory_report, token_generate;
    repeat case_match; simplify_eq; simpl; intros Hfail;
    try (by destruct (Hfail _ _ eq_refl));
    (split; [done|]); intros e connection He; simplify_eq; auto 7.
  all: try (match goal with H : oauth_scheme _ = inl _ |- _ =>
              apply oauth_scheme_raises in H end; simplify_eq).
Qed.



(** ** Invariants of the table *)

Section invariants.
Implicit Types (db : Store) (k : int64) (r : Row).

Lemma names_unique_insert db k r seq :
  names_unique db →
  (∀ k' r', dishes db !! k' = Some r' → col_name r' = col_name r → k' = k) →
  names_unique (with_dishes (<[k := r]> (dishes db)) seq db).
Proof.
  intros Hdb Hnew k1 k2 r1 r2. unfold with_dishes. simpl.
  rewrite !lookup_insert. repeat case_decide; intros; simplify_eq; try done.
  - symmetry. by eapply Hnew.
  - by eapply Hnew.
  - by eapply Hdb.
Qed.

Lemma names_unique_delete db k seq :
  names_unique db → names_unique (with_dishes (delete k (dishes db)) seq db).
Proof.
  intros Hdb k1 k2 r1 r2. unfold with_dishes. simpl.
  intros [_ H1]%lookup_delete_Some [_ H2]%lookup_delete_Some. by eapply Hdb.
Qed.

Lemma name_not_taken_None n db k r :
  name_taken None n (dishes db) = false →
  dishes db !! k = Some r → col_name r ≠ n.
Proof.
  intros Htaken Hk Hn.
  by pose proof (proj1 (name_taken_false _ _ _) Htaken k r Hk Hn).
Qed.

Lemma names_unique_dishes db db' :
  dishes db' = dishes db → names_unique db → names_unique db'.
Proof. unfold names_unique. by intros ->. Qed.

Lemma insert_or_ignore_dish_names_unique k r db :
  names_unique db → names_unique (insert_or_ignore_dish k r db).
Proof.
  intros Hdb.
  destruct (insert_or_ignore_dish_spec k r db)
    as (_ & _ & [[Heq _]|(Heq & Hk & Htaken)]).
  - by eapply names_unique_dishes.
  - eapply (names_unique_dishes
              (with_dishes (<[k := r]> (dishes db)) (dishes_seq db) db));
      [done|].
    apply names_unique_insert; [done|]. intros k' r' Hk' Hn.
    by destruct (name_not_taken_None _ _ _ _ Htaken Hk').
Qed.

Lemma seed_dish_names_unique dish db :
  names_unique db → names_unique (seed_dish db dish).
Proof.
  intros Hdb. unfold seed_dish. destruct (bind_Dish dish) as [[rid row]|]; [|done].
  by apply insert_or_ignore_dish_names_unique.
Qed.

Lemma startup_names_unique db : names_unique db → names_unique (startup db).
Proof.
  intros Hdb. unfold startup.
  assert (names_unique
            (fold_left (λ acc kn, insert_or_ignore_category kn.1 kn.2 acc)
               seed_categories db)) as Hdb1.
  { unfold names_unique in *. by rewrite seed_categories_dishes. }
  revert Hdb1. generalize (fold_left
    (λ acc kn, insert_or_ignore_category kn.1 kn.2 acc) seed_categories db).
  induction seed_dishes as [|d ds IH]; intros db1 Hdb1; [done|].
  simpl. by apply IH, seed_dish_names_unique.
Qed.

Lemma app_names_unique req db :
  names_unique db → names_unique (app req db).2.
Proof.
  intros Hdb. destruct req; simpl;
    unfold Depends, get_dishes, add_dish, insert_dish, update_dish, update_row,
      delete_dish, delete_row, get_dish_by_id, mark_dish_out_of_stock,
      update_dish_stock, update_column, get_out_of_stock_dishes,
      get_inventory_report, token_generate;
    repeat case_match; simplify_eq; simpl; try done.
  - (* INSERT *)
    apply names_unique_insert; [done|]. intros k' r' Hk' Hn.
    by edestruct name_not_taken_None.
  - (* UPDATE of all columns *)
    apply names_unique_insert; [done|]. intros k' r' Hk' Hn.
    match goal with
    | H : name_taken (Some _) _ _ = false |- _ =>
        pose proof (proj1 (name_taken_false _ _ _) H k' r' Hk' Hn) as Heq
    end.
    by injection Heq.
  - (* DELETE *)
    by apply names_unique_delete.
  - (* UPDATE of availability *)
    apply names_unique_insert; [done|]. simpl. intros k' r' Hk' Hn.
    by eapply Hdb.
  - (* UPDATE of stock *)
    apply names_unique_insert; [done|]. simpl. intros k' r' Hk' Hn.
    by eapply Hdb.
Qed.

Lemma reachable_names_unique db : reachable db → names_unique db.
Proof.
  induction 1 as [|db _ IH|req db _ IH].
  - intros k1 k2 r1 r2 Hk1. simpl in Hk1. by rewrite lookup_empty in Hk1.
  - by apply startup_names_unique.
  - by apply app_names_unique.
Qed.

Lemma rowids_counted_insert db k r seq :
  rowids_counted db → dishes_seq db ≤ seq → int64_Z k ≤ seq →
  rowids_counted (with_dishes (<[k := r]> (dishes db)) seq db).
Proof.
  intros Hdb Hseq Hk. unfold rowids_counted, with_dishes. simpl.
  apply map_Forall_insert_2; [done|].
  eapply map_Forall_impl; [exact Hdb|]. simpl. intros. lia.
Qed.

Lemma insert_or_ignore_dish_rowids k r db :
  rowids_counted db →
  rowids_counted (insert_or_ignore_dish k r db)
  ∧ dishes_seq db ≤ dishes_seq (insert_or_ignore_dish k r db).
Proof.
  intros Hdb. unfold rowids_counted.
  destruct (insert_or_ignore_dish_spec k r db)
    as (-> & _ & [[-> _]|(-> & _)]); (split; [|lia]).
  - eapply map_Forall_impl; [exact Hdb|]. simpl. intros. lia.
  - apply map_Forall_insert_2; [lia|].
    eapply map_Forall_impl; [exact Hdb|]. simpl. intros. lia.
Qed.

Lemma seed_dish_rowids dish db :
  rowids_counted db →
  rowids_counted (seed_dish db dish)
  ∧ dishes_seq db ≤ dishes_seq (seed_dish db dish).
Proof.
  intros Hdb. unfold seed_dish. destruct (bind_Dish dish) as [[rid row]|]; [|done].
  by apply insert_or_ignore_dish_rowids.
Qed.

Lemma insert_or_ignore_category_rowids (c : Z) n db :
  rowids_counted db →
  rowids_counted (insert_or_ignore_category c n db)
  ∧ dishes_seq db ≤ dishes_seq (insert_or_ignore_category c n db).
Proof. intros Hdb. unfold insert_or_ignore_category. by repeat case_match. Qed.

Lemma startup_rowids db :
  rowids_counted db →
  rowids_counted (startup db) ∧ dishes_seq db ≤ dishes_seq (startup db).
Proof.
  unfold startup. generalize seed_dishes. generalize seed_categories.
  intros cats ds Hdb.
  assert (rowids_counted
            (fold_left (λ acc kn, insert_or_ignore_category kn.1 kn.2 acc) cats db)
          ∧ dishes_seq db
            ≤ dishes_seq
                (fold_left (λ acc kn, insert_or_ignore_category kn.1 kn.2 acc)
                   cats db)) as [Hc Hle].
  { revert db Hdb. induction cats as [|[c n] cats IH]; intros db Hdb; [done|].
    simpl. destruct (insert_or_ignore_category_rowids c n db Hdb) as [H1 H2].
    destruct (IH _ H1) as [H3 H4]. split; [done|lia]. }
  revert Hc Hle. generalize (fold_left
    (λ acc kn, insert_or_ignore_category kn.1 kn.2 acc) cats db).
  intros db1. revert db1. induction ds as [|d ds IH]; intros db1 Hc Hle; [done|].
  simpl. destruct (seed_dish_rowids d db1 Hc) as [H1 H2].
  apply IH; [done|lia].
Qed.

Lemma next_rowid_gt_seq db : dishes_seq db < next_rowid db.
Proof. unfold next_rowid. lia. Qed.

Lemma app_rowids req db :
  rowids_counted db →
  rowids_counted (app req db).2 ∧ dishes_seq db ≤ dishes_seq (app req db).2.
Proof.
  intros Hdb. pose proof (next_rowid_gt_seq db) as Hnext.
  destruct req; simpl;
    unfold Depends, get_dishes, add_dish, insert_dish, update_dish, update_row,
      delete_dish, delete_row, get_dish_by_id, mark_dish_out_of_stock,
      update_dish_stock, update_column, get_out_of_stock_dishes,
      get_inventory_report, token_generate;
    repeat case_match; simplify_eq; simpl; try done;
    try match goal with
        | H : bind (next_rowid db) = Some _ |- _ => apply bind_Some in H
        end;
    (split; [|simpl; lia]).
  - apply rowids_counted_insert; [done|lia..].
  - apply rowids_counted_insert; [done|lia|].
    by eapply (map_Forall_lookup_1 _ _ _ _ Hdb).
  - unfold rowids_counted, with_dishes. simpl. by apply map_Forall_delete.
  - apply rowids_counted_insert; [done|lia|].
    by eapply (map_Forall_lookup_1 _ _ _ _ Hdb).
  - apply rowids_counted_insert; [done|lia|].
    by eapply (map_Forall_lookup_1 _ _ _ _ Hdb).
Qed.

Lemma step_rowids db ev :
  rowids_counted db →
  rowids_counted (step db ev) ∧ dishes_seq db ≤ dishes_seq (step db ev).
Proof. destruct ev; [apply startup_rowids | apply app_rowids | done]. Qed.

Lemma run_rowids evs db :
  rowids_counted db →
  rowids_counted (run evs db) ∧ dishes_seq db ≤ dishes_seq (run evs db).
Proof.
  revert db. induction evs as [|ev evs IH]; intros db Hdb; [done|].
  simpl. destruct (step_rowids db ev Hdb) as [H1 H2].
  destruct (IH _ H1) as [H3 H4]. unfold run in *. split; [done|lia].
Qed.

Lemma reachable_rowids_counted db : reachable db → rowids_counted db.
Proof.
  induction 1 as [|db _ IH|req db _ IH].
  - apply map_Forall_empty.
  - by apply startup_rowids.
  - by apply app_rowids.
Qed.

End invariants.

(** X9.  In every store the service can reach, no two dishes have the same
    name. *)
Theorem reachable_dish_names_unique db k1 k2 r1 r2 :
  reachable db →
  dishes db !! k1 = Some r1 →
  dishes db !! k2 = Some r2 →
  col_name r1 = col_name r2 →
  k1 = k2.
Proof. intros Hdb%reachable_names_unique. apply Hdb. Qed.

Lemma reachable_dish_names_unique_witness : i64 1 = i64 1.
Proof.
  apply (reachable_dish_names_unique (startup empty_store) (i64 1) (i64 1)
           onion_pakoda_row onion_pakoda_row).
  - apply reachable_startup, reachable_empty.
  - vm_compute. reflexivity.
  - vm_compute. reflexivity.
  - reflexivity.
Defined.

(** X10.  Rowids are not handed out twice.  Take a dish id that is in the
    table of a reachable store, and let the service run on in any way:
    start-ups, requests, deletes of that very dish.  A row that [add_dish]
    inserts afterwards gets a rowid larger than that id. *)
Theorem add_dish_rowid_never_reused db (k : int64) r evs row (rid : int64) db' :
  reachable db →
  dishes db !! k = Some r →
  insert_dish row (run evs db) = inr (rid, db') →
  k < rid.
Proof.
  intros Hdb%reachable_rowids_counted Hk.
  pose proof (map_Forall_lookup_1 _ _ _ _ Hdb Hk) as Hle. simpl in Hle.
  destruct (run_rowids evs db Hdb) as [_ Hmono].
  pose proof (next_rowid_gt_seq (run evs db)).
  unfold insert_dish.
  destruct (bind (next_rowid (run evs db))) as [rid'|] eqn:Hrid; [|done].
  apply bind_Some in Hrid. case_match; [done|]. intros [= <- _]. lia.
Qed.

Lemma add_dish_rowid_never_reused_witness : i64 2 < i64 3.
Proof.
  apply (add_dish_rowid_never_reused (startup empty_store) (i64 2)
           mixed_veg_pakoda_row
           [Serve (DELETE_dishes_id (Some "Bearer alice") 2); Start;
            Serve (DELETE_dishes_id (Some "Bearer alice") 2)]
           dal_tadka_row (i64 3)
           (with_dishes
              (<[i64 3 := dal_tadka_row]>
                 (dishes (run [Serve (DELETE_dishes_id (Some "Bearer alice") 2);
                               Start;
                               Serve (DELETE_dishes_id (Some "Bearer alice") 2)]
                            (startup empty_store))))
              3
              (run [Serve (DELETE_dishes_id (Some "Bearer alice") 2); Start;
                    Serve (DELETE_dishes_id (Some "Bearer alice") 2)]
                 (startup empty_store)))).
  - apply reachable_startup, reachable_empty.
  - vm_compute. reflexivity.
  - vm_compute. reflexivity.
Defined.

(** ** Out-of-stock dishes and the inventory counts *)

(** X11.  [get_out_of_stock_dishes] answers with the message, not with an
    empty list, exactly when no row has availability 0; as soon as one
    has, it answers with the list of the rows of availability 0: each of
    them once, in ascending order of their ids, and no other row. *)
Theorem get_out_of_stock_dishes_answer token db :
  ((∀ k r, dishes db !! k = Some r → col_availability r ≠ 0) →
   get_out_of_stock_dishes token db
   = (JSONResponse (JDict [("message", JStr "No out-of-stock dishes found")])
        HTTP_200_OK, db))
  ∧ (∀ k r, dishes db !! k = Some r → col_availability r = 0 →
     ∃ rows,
       get_out_of_stock_dishes token db
         = (JSONResponse (JList (JDict ∘ Row_dict <$> rows)) HTTP_200_OK, db)
       ∧ (k, r) ∈ rows
       ∧ StronglySorted (λ a b : int64 * Row, int64_Z a.1 < int64_Z b.1) rows
       ∧ ∀ k' r', (k', r') ∈ rows ↔
           dishes db !! k' = Some r' ∧ col_availability r' = 0).
Proof.
  unfold get_out_of_stock_dishes. split.
  - intros Hnone.
    assert (select (λ _ r, bool_decide (col_availability r = 0)) (dishes db) = [])
      as ->; [|done].
    apply select_nil. intros k r Hk. apply bool_decide_eq_false_2. by eapply Hnone.
  - intros k r Hk Ha.
    assert ((k, r) ∈ select (λ _ r, bool_decide (col_availability r = 0))
                       (dishes db)) as Hin.
    { apply elem_of_select. split; [done|]. by apply bool_decide_eq_true_2. }
    pose proof (select_ascending (λ _ r, bool_decide (col_availability r = 0))
                  (dishes db)) as Hsorted.
    destruct (select _ (dishes db)) as [|kr rows] eqn:Hsel.
    { by apply not_elem_of_nil in Hin. }
    exists (kr :: rows). split_and!; [done|done|done|].
    intros k' r'. rewrite <- Hsel, elem_of_select.
    by rewrite bool_decide_eq_true.
Qed.

Lemma get_out_of_stock_dishes_answer_witness :
  get_out_of_stock_dishes "alice" (startup empty_store)
  = (JSONResponse (JDict [("message", JStr "No out-of-stock dishes found")])
       HTTP_200_OK, startup empty_store).
Proof.
  apply get_out_of_stock_dishes_answer. intros k r Hk.
  assert (select (λ _ r, bool_decide (col_availability r = 0))
            (dishes (startup empty_store)) = []) as Hnil
    by (vm_compute; reflexivity).
  pose proof (proj1 (select_nil _ _) Hnil k r Hk) as HP. simpl in HP.
  by apply bool_decide_eq_false in HP.
Defined.



Section counting.
Implicit Types (t : gmap int64 Row) (P : int64 → Row → bool).

Lemma filter_length_Permutation {A} (f : A → bool) (l1 l2 : list A) :
  l1 ≡ₚ l2 → length (List.filter f l1) = length (List.filter f l2).
Proof.
  induction 1 as [|x l1 l2 _ IH|x y l|l1 l2 l3 _ IH1 _ IH2]; simpl.
  - done.
  - destruct (f x); simpl; by rewrite IH.
  - by destruct (f x), (f y).
  - by rewrite IH1.
Qed.

Lemma count_insert_None P t k r :
  t !! k = None →
  count P (<[k := r]> t) = count P t + (if P k r then 1 else 0).
Proof.
  intros Hk. unfold count, select.
  rewrite (filter_length_Permutation _ (rows (<[k := r]> t))
             ((k, r) :: rows t)).
  - simpl. destruct (P k r); simpl; lia.
  - rewrite !rows_Permutation. by apply map_to_list_insert.
Qed.

Lemma count_delete P t k r :
  t !! k = Some r →
  count P t = count P (delete k t) + (if P k r then 1 else 0).
Proof.
  intros Hk. rewrite <- (insert_id t k r Hk) at 1.
  rewrite <- insert_delete_eq. apply count_insert_None, lookup_delete_eq.
Qed.

Lemma count_insert_Some P t k r r' :
  t !! k = Some r →
  count P (<[k := r']> t)
  = count P t - (if P k r then 1 else 0) + (if P k r' then 1 else 0).
Proof.
  intros Hk. rewrite (count_delete P t k r Hk).
  rewrite <- (insert_delete_eq t).
  rewrite count_insert_None by apply lookup_delete_eq. lia.
Qed.

End counting.



(** X14.  A dish that [add_dish] inserts is counted once by the inventory
    report: under [in_stock] when it was submitted as available, under
    [out_of_stock] when not, and the other count stays. *)
Theorem add_dish_counts dish token db content db' :
  add_dish dish token db = (JSONResponse content HTTP_201_CREATED, db') →
  inventory_counts db'
  = if availability dish
    then ((inventory_counts db).1 + 1, (inventory_counts db).2)
    else ((inventory_counts db).1, (inventory_counts db).2 + 1).
Proof.
  unfold add_dish, insert_dish.
  destruct (bind (category_id dish)) as [category|]; [|done].
  destruct (select _ (dishes db)); [|done].
  destruct (Dish_row dish) as [row|] eqn:Hrow; [|done].
  destruct (bind (next_rowid db)) as [rid|] eqn:Hrid; [|done].
  destruct (name_taken None _ (dishes db)); [done|].
  intros [= <- <-]. unfold inventory_counts, with_dishes. simpl.
  rewrite !(count_insert_None _ _ _ _ (next_rowid_fresh _ _ Hrid)). simpl.
  apply Dish_row_Some in Hrow as (_ & _ & -> & _).
  destruct (availability dish); simpl; f_equal; lia.
Qed.

Lemma add_dish_counts_witness :
  inventory_counts (add_dish dal_tadka "alice" (startup empty_store)).2
  = ((inventory_counts (startup empty_store)).1 + 1,
     (inventory_counts (startup empty_store)).2).
Proof.
  apply (add_dish_counts dal_tadka "alice" (startup empty_store)
           (JDict [("message", JStr "Dish added successfully");
                   ("dish", JDict (Dish_dict dal_tadka))])).
  vm_compute. reflexivity.
Defined.

(** ** Start-up *)

Section seeding.
(** Seeding is a fold of an "insert unless it is there" step.  Such a step
    does nothing on a store that blocks its row, leaves a store that
    blocks it, and never unblocks a row. *)
Context {A : Type} (ins : A → Store → Store) (blocked : A → Store → Prop).
Hypothesis ins_blocked : ∀ a db, blocked a db → ins a db = db.
Hypothesis blocked_ins : ∀ a db, blocked a (ins a db).
Hypothesis blocked_mono : ∀ a b db, blocked a db → blocked a (ins b db).

Local Abbreviation seed := (fold_left (λ acc a, ins a acc)).

Lemma blocked_seed_mono a l db : blocked a db → blocked a (seed l db).
Proof.
  revert db. induction l as [|b l IH]; intros db Hb; [done|].
  simpl. by apply IH, blocked_mono.
Qed.

Lemma blocked_seed a l db : a ∈ l → blocked a (seed l db).
Proof.
  revert db. induction l as [|b l IH]; intros db; [by intros ?%not_elem_of_nil|].
  intros [->|Hin]%elem_of_cons; simpl.
  - apply blocked_seed_mono, blocked_ins.
  - by apply IH.
Qed.

Lemma seed_blocked l db : (∀ a, a ∈ l → blocked a db) → seed l db = db.
Proof.
  induction l as [|b l IH]; intros Hall; [done|]. simpl.
  rewrite ins_blocked by (apply Hall; left).
  apply IH. intros a Ha. apply Hall. by right.
Qed.

End seeding.

Lemma name_taken_inv self n (t : gmap int64 Row) :
  name_taken self n t = true →
  ∃ k r, t !! k = Some r ∧ col_name r = n ∧ Some k ≠ self.
Proof.
  unfold name_taken.
  destruct (select _ t) as [|[k r] rows] eqn:Hsel; [done|]. intros _.
  assert ((k, r) ∈ select (λ k r, bool_decide (col_name r = n)
                                   && bool_decide (Some k ≠ self)) t) as Hin
    by (rewrite Hsel; left).
  apply elem_of_select in Hin as [Hk [Hn Hself]%andb_true_iff].
  apply bool_decide_eq_true in Hn, Hself. eauto.
Qed.

Lemma with_dishes_id db : with_dishes (dishes db) (dishes_seq db) db = db.
Proof. by destruct db. Qed.

Lemma insert_dish_seed_blocked dish db :
  dish_blocked dish db → seed_dish db dish = db.
Proof.
  unfold dish_blocked, seed_dish, insert_or_ignore_dish.
  destruct (bind_Dish dish) as [[rid row]|]; [|done].
  intros [Hb Hseq]. rewrite Z.max_l by done.
  destruct Hb as [[r ->]| Htaken]; [apply with_dishes_id|].
  case_match; [apply with_dishes_id|]. rewrite Htaken. apply with_dishes_id.
Qed.

Lemma dish_blocked_insert dish db : dish_blocked dish (seed_dish db dish).
Proof.
  unfold dish_blocked, seed_dish.
  destruct (bind_Dish dish) as [[rid row]|]; [|done].
  destruct (insert_or_ignore_dish_spec rid row db)
    as (-> & _ & [[-> Hb]|(-> & _)]); (split; [|lia]); [done|].
  left. rewrite lookup_insert_eq. by eexists.
Qed.

Lemma dish_blocked_mono d1 d2 db :
  dish_blocked d1 db → dish_blocked d1 (seed_dish db d2).
Proof.
  unfold dish_blocked, seed_dish.
  destruct (bind_Dish d1) as [[rid1 row1]|]; [|done].
  destruct (bind_Dish d2) as [[rid2 row2]|]; [|done]. intros [Hb Hseq].
  destruct (insert_or_ignore_dish_spec rid2 row2 db)
    as (-> & _ & [[-> _]|(-> & Hk & _)]); (split; [|lia]); [done|].
  destruct Hb as [[r Hr]|(k & r & Hr & Hn & _)%name_taken_inv].
  - left. exists r. rewrite lookup_insert_ne; [done|]. congruence.
  - right. apply (name_taken_true None _ _ k r); [|done|done].
    rewrite lookup_insert_ne; [done|]. congruence.
Qed.

Lemma insert_category_seed_blocked kn db :
  category_blocked kn db → insert_or_ignore_category kn.1 kn.2 db = db.
Proof.
  unfold category_blocked, insert_or_ignore_category.
  intros [[n ->]| ->]; [done|]. by case_match.
Qed.

Lemma category_blocked_insert kn db :
  category_blocked kn (insert_or_ignore_category kn.1 kn.2 db).
Proof.
  unfold category_blocked, insert_or_ignore_category.
  destruct (categories db !! kn.1) as [n|] eqn:Hk; [left; by rewrite Hk|].
  destruct (existsb _ (map_to_list (categories db))) eqn:Hex; [by right|].
  left. simpl. rewrite lookup_insert_eq. by eexists.
Qed.

Lemma category_blocked_mono kn1 kn2 db :
  category_blocked kn1 db →
  category_blocked kn1 (insert_or_ignore_category kn2.1 kn2.2 db).
Proof.
  unfold category_blocked, insert_or_ignore_category. intros Hb.
  destruct (categories db !! kn2.1) as [n|] eqn:Hk; [done|].
  case_match; [done|]. simpl.
  destruct Hb as [[n Hn]|Hex].
  - left. exists n. rewrite lookup_insert_ne; [done|]. congruence.
  - right. apply existsb_exists in Hex as ([k n] & Hin & Hn).
    apply existsb_exists. exists (k, n). split; [|done].
    apply list_elem_of_In, elem_of_map_to_list.
    apply list_elem_of_In, elem_of_map_to_list in Hin.
    rewrite lookup_insert_ne; [done|]. congruence.
Qed.

Lemma seed_dishes_categories l db :
  categories (fold_left seed_dish l db) = categories db.
Proof.
  revert db. induction l as [|d l IH]; intros db; [done|]. simpl.
  rewrite IH. unfold seed_dish. destruct (bind_Dish d) as [[rid row]|]; [|done].
  by destruct (insert_or_ignore_dish_spec rid row db) as (_ & -> & _).
Qed.

(** X15.  Start-up is idempotent on every store: starting the process a
    second time right after the first changes nothing, whatever the
    database file held before. *)
Theorem startup_idempotent db : startup (startup db) = startup db.
Proof.
  unfold startup.
  set (seedC := fold_left (λ acc kn, insert_or_ignore_category kn.1 kn.2 acc)
                  seed_categories).
  set (seedD := fold_left seed_dish seed_dishes).
  assert (seedC (seedD (seedC db)) = seedD (seedC db)) as ->.
  { apply (seed_blocked (λ kn, insert_or_ignore_category kn.1 kn.2)
             category_blocked insert_category_seed_blocked).
    intros kn Hin. unfold category_blocked.
    unfold seedD. rewrite seed_dishes_categories.
    by apply (blocked_seed (λ kn, insert_or_ignore_category kn.1 kn.2)
                category_blocked category_blocked_insert category_blocked_mono). }
  apply (seed_blocked (λ dish db, seed_dish db dish)
           dish_blocked insert_dish_seed_blocked).
  intros dish Hin.
  by apply (blocked_seed (λ dish db, seed_dish db dish)
              dish_blocked dish_blocked_insert dish_blocked_mono).
Qed.

Lemma insert_or_ignore_dish_free (k : int64) r db :
  dishes db !! k = None →
  (∀ k' r', dishes db !! k' = Some r' → col_name r' ≠ col_name r) →
  dishes (insert_or_ignore_dish k r db) = <[k := r]> (dishes db).
Proof.
  intros Hk Hname. unfold insert_or_ignore_dish. rewrite Hk.
  assert (name_taken None (col_name r) (dishes db) = false) as ->; [|done].
  apply name_taken_false. intros k' r' Hk' Hn. by destruct (Hname k' r' Hk').
Qed.

Lemma insert_or_ignore_dish_cases (k : int64) r db :
  dishes (insert_or_ignore_dish k r db) = dishes db
  ∨ dishes (insert_or_ignore_dish k r db) = <[k := r]> (dishes db)
    ∧ dishes db !! k = None.
Proof.
  destruct (insert_or_ignore_dish_spec k r db)
    as (_ & _ & [[-> _]|(-> & Hk & _)]); auto.
Qed.

Lemma insert_or_ignore_two_dishes (k1 k2 : int64) r1 r2 db :
  k1 ≠ k2 →
  col_name r1 ≠ col_name r2 →
  (dishes db !! k1 = None →
   (∀ k r, dishes db !! k = Some r → col_name r ≠ col_name r1) →
   dishes (insert_or_ignore_dish k2 r2 (insert_or_ignore_dish k1 r1 db)) !! k1
   = Some r1)
  ∧ (dishes db !! k2 = None →
     (∀ k r, dishes db !! k = Some r → col_name r ≠ col_name r2) →
     dishes (insert_or_ignore_dish k2 r2 (insert_or_ignore_dish k1 r1 db)) !! k2
     = Some r2).
Proof.
  intros Hk Hr. split; intros Hfree Hname.
  - pose proof (insert_or_ignore_dish_free k1 r1 db Hfree Hname) as H1.
    destruct (insert_or_ignore_dish_cases k2 r2 (insert_or_ignore_dish k1 r1 db))
      as [->|[-> _]].
    + by rewrite H1, lookup_insert_eq.
    + rewrite lookup_insert_ne by congruence. by rewrite H1, lookup_insert_eq.
  - rewrite insert_or_ignore_dish_free.
    + by rewrite lookup_insert_eq.
    + destruct (insert_or_ignore_dish_cases k1 r1 db) as [->|[-> _]]; [done|].
      by rewrite lookup_insert_ne.
    + intros k r.
      destruct (insert_or_ignore_dish_cases k1 r1 db) as [->|[-> _]];
        [apply Hname|].
      rewrite lookup_insert. case_decide.
      * by intros [= <-].
      * apply Hname.
Qed.

(** X16.  A seed dish comes back at start-up.  When its id is free and no
    row carries its name (it was never there, or it was deleted), the
    store after [startup] holds the seed dish again, under its own id and
    with its own columns. *)
Theorem startup_restores_seed dish (rid : int64) db :
  dish ∈ seed_dishes →
  int64_Z rid = id dish →
  dishes db !! rid = None →
  (∀ k r, dishes db !! k = Some r → col_name r ≠ name dish) →
  ∃ row, Dish_row dish = Some row ∧ dishes (startup db) !! rid = Some row.
Proof.
  intros Hin Hrid Hk Hname. unfold startup.
  remember (fold_left (λ acc kn, insert_or_ignore_category kn.1 kn.2 acc)
              seed_categories db) as db1 eqn:Hdb1.
  assert (dishes db1 = dishes db) as Heq by (subst; apply seed_categories_dishes).
  rewrite <- Heq in Hk, Hname. clear Hdb1 Heq db.
  unfold seed_dishes in *.
  change (fold_left seed_dish [?d1; ?d2] db1)
    with (insert_or_ignore_dish (i64 2) mixed_veg_pakoda_row
            (insert_or_ignore_dish (i64 1) onion_pakoda_row db1)).
  destruct (insert_or_ignore_two_dishes (i64 1) (i64 2) onion_pakoda_row
              mixed_veg_pakoda_row db1) as [H1 H2]; [done|done|].
  apply elem_of_cons in Hin as [->|Hin];
    [|apply elem_of_cons in Hin as [->|Hin]; [|by apply not_elem_of_nil in Hin]].
  - assert (rid = i64 1) as -> by (by apply int64_Z_inj).
    exists onion_pakoda_row. split; [reflexivity|]. by apply H1.
  - assert (rid = i64 2) as -> by (by apply int64_Z_inj).
    exists mixed_veg_pakoda_row. split; [reflexivity|]. by apply H2.
Qed.

Lemma startup_restores_seed_witness :
  ∃ row,
    Dish_row {| id := 1; name := "Onion Pakoda"; category_id := 1;
                availability := true; stock := Some 10 |} = Some row
    ∧ dishes (startup (delete_dish (i64 1) "alice" (startup empty_store)).2)
        !! i64 1 = Some row.
Proof.
  apply (startup_restores_seed
           {| id := 1; name := "Onion Pakoda"; category_id := 1;
              availability := true; stock := Some 10 |}
           (i64 1)
           (delete_dish (i64 1) "alice" (startup empty_store)).2).
  - left.
  - reflexivity.
  - vm_compute. reflexivity.
  - intros k r Hk.
    assert (select (λ _ r, bool_decide (col_name r = "Onion Pakoda"))
              (dishes (delete_dish (i64 1) "alice" (startup empty_store)).2) = [])
      as Hnil by (vm_compute; reflexivity).
    pose proof (proj1 (select_nil _ _) Hnil k r Hk) as HP. simpl in HP.
    by apply bool_decide_eq_false in HP.
Defined.

(** ** The locked database *)

Lemma app_without_write req db :
  executes_write req (app req db).1 = false → (app req db).2 = db.
Proof.
  destruct req; simpl;
    unfold Depends, get_dishes, add_dish, insert_dish, update_dish, update_row,
      delete_dish, delete_row, get_dish_by_id, mark_dish_out_of_stock,
      update_dish_stock, update_column, get_out_of_stock_dishes,
      get_inventory_report, token_generate;
    repeat case_match; simplify_eq; simpl; try done.
Qed.



(** ** The databases of a process *)

Lemma serve_database req p :
  database (serve req p).2 = database p
  ∨ database (serve req p).2 = (app req (database p)).2.
Proof.
  unfold serve. destruct (app req (database p)) as [o db'].
  destruct (write_locked p && executes_write req o); simpl; auto.
Qed.

Lemma process_step_reachable p ev :
  reachable (database p) → reachable (database (process_step p ev)).
Proof.
  intros Hp. destruct ev as [|req|]; simpl.
  - by apply reachable_startup.
  - destruct (serve_database req p) as [-> | ->]; [done|].
    by apply reachable_request.
  - done.
Qed.

Lemma process_run_reachable evs p :
  reachable (database p) → reachable (database (process_run evs p)).
Proof.
  revert p. induction evs as [|ev evs IH]; intros p Hp; [done|].
  simpl. by apply IH, process_step_reachable.
Qed.

(** X27.  What holds of the reachable stores holds of the database of the
    process at every moment, with the lock in the picture: whatever the
    process has been through since its database file did not exist
    (starts, requests that were served, requests that died, requests that
    found the database locked, collections), no two dishes have the same
    name, every availability is 0 or 1, the two counts of the inventory
    report add up to the number of rows, and no rowid is above the
    AUTOINCREMENT counter. *)
Theorem process_database_invariants evs :
  reachable (database (process_run evs new_process))
  ∧ names_unique (database (process_run evs new_process))
  ∧ availability_is_bool (database (process_run evs new_process))
  ∧ (inventory_counts (database (process_run evs new_process))).1
    + (inventory_counts (database (process_run evs new_process))).2
    = Z.of_nat (size (dishes (database (process_run evs new_process))))
  ∧ rowids_counted (database (process_run evs new_process)).
Proof.
  assert (reachable (database (process_run evs new_process))) as Hreach.
  { apply process_run_reachable. simpl. apply reachable_empty. }
  split_and!; [done| | | |].
  - by apply reachable_names_unique.
  - by apply reachable_is_bool.
  - by apply inventory_counts_total, reachable_is_bool.
  - by apply reachable_rowids_counted.
Qed.

End MenuExtra.

(** * Further properties of the identity service *)

Module IdentityExtra.
Import users IdentitySpec.

Section flows.

Variable check_password_hash : string → string → bool.
Variable generate_password_hash : string → string → string.
Variable HS256 : string → Payload → Z.

Local Abbreviation jwt_decode := (jwt_decode HS256).
Local Abbreviation create_jwt_token := (create_jwt_token HS256).
Local Abbreviation post_register := (post_register generate_password_hash).
Local Abbreviation post_login := (post_login check_password_hash HS256).
Local Abbreviation get_change_password := (get_change_password HS256).
Local Abbreviation get_change_password_route := (get_change_password_route HS256).
Local Abbreviation post_change_password :=
  (post_change_password check_password_hash generate_password_hash HS256).

(** ** Registration *)


(** ** Login *)

(** X18.  A login fails in one way only.  An unknown user name and a wrong
    password for a known one get the same page, "Invalid username or
    password.", with no credential in the page and no cookie; and no login,
    failed or not, writes to the table. *)
Theorem post_login_failure username password utcnow db :
  ((db !! username = None
    ∨ ∃ hash, db !! username = Some hash
              ∧ check_password_hash hash password = false) →
   post_login username password utcnow db = (invalid_login_page, db))
  ∧ (post_login username password utcnow db).2 = db.
Proof.
  unfold users.post_login, invalid_login_page. split.
  - intros [->|(hash & -> & ->)]; done.
  - by repeat case_match.
Qed.


(** ** Changing the password *)

(** X20.  [post_change_password] touches one row at most.  Whatever the
    request, the table keeps its set of user names, and the stored hash of
    every user other than the one named in the credential stays as it
    was. *)
Theorem post_change_password_frame current_password new_password token salt now db :
  dom (post_change_password current_password new_password token salt now db).2
  = dom db
  ∧ ∀ payload other,
      jwt_decode token JWT_SECRET_KEY now = inr payload →
      payload_username payload ≠ Some other →
      (post_change_password current_password new_password token salt now db).2
        !! other
      = db !! other.
Proof.
  unfold users.post_change_password. split.
  - repeat case_match; simplify_eq; simpl; try done.
    apply dom_insert_lookup_L. by eexists.
  - intros payload other Hdec Hother.
    repeat case_match; simplify_eq; simpl; try done.
    rewrite lookup_insert_ne; [done|]. congruence.
Qed.

(** X21.  A wrong current password changes nothing.  Under a credential
    that decodes to a user name, when that user is not in the table or the
    stored hash rejects the submitted current password, the answer is the
    change-password page with "Incorrect current password." and the table
    stays as it was. *)
Theorem post_change_password_incorrect
    current_password new_password token salt now db payload username :
  jwt_decode token JWT_SECRET_KEY now = inr payload →
  payload_username payload = Some username →
  (db !! username = None
   ∨ ∃ hash, db !! username = Some hash
             ∧ check_password_hash hash current_password = false) →
  post_change_password current_password new_password token salt now db
  = (TemplateResponse {| message := Some "Incorrect current password.";
                         action := "change-password"; token := None;
                         username := Some username |} None, db).
Proof.
  intros Hdec Hname Hdb. unfold users.post_change_password.
  destruct (not_token token) eqn:Hnot.
  { destruct token as [|[|]]; done. }
  rewrite Hdec, Hname. by destruct Hdb as [->|(hash & -> & ->)].
Qed.


(** X23.  The change-password form.  With the credential of a login,
    presented less than 3600 seconds later, [get_change_password] shows the
    form for the user who logged in; with no credential, or an empty one,
    it shows the login page with "Token is missing".  It never writes. *)
Theorem get_change_password_form username utcnow now db :
  (now < utcnow + 3600 →
   get_change_password (Some (create_jwt_token username utcnow)) now db
   = (TemplateResponse {| message := None; action := "change-password";
                          token := None; username := Some username |} None,
      db))
  ∧ get_change_password None now db = (login_page "Token is missing", db)
  ∧ get_change_password (Some (Raw "")) now db
    = (login_page "Token is missing", db)
  ∧ ∀ token, (get_change_password token now db).2 = db.
Proof.
  unfold users.get_change_password. split_and!; try done.
  - intros Hnow. rewrite not_token_created, jwt_decode_created.
    by rewrite bool_decide_eq_false_2 by lia.
  - intros token. by repeat case_match.
Qed.

(** X24.  The cookie of the login is not the cookie of the form.  Login
    sets its credential as the cookie [jwt_token], and the form reads the
    cookie [token]: a browser that holds just the cookies of a successful
    login is answered "Token is missing" on [GET /change-password]. *)
Theorem login_cookie_not_read username password utcnow now db hash :
  db !! username = Some hash →
  check_password_hash hash password = true →
  cookies_after (post_login username password utcnow db).1
  = [("jwt_token", create_jwt_token username utcnow)]
  ∧ get_change_password_route
      (cookies_after (post_login username password utcnow db).1) now db
    = (login_page "Token is missing", db).
Proof.
  intros Hdb Hcheck. unfold users.post_login. rewrite Hdb, Hcheck. done.
Qed.

End flows.


Lemma post_login_failure_witness :
  post_login sample_check_password_hash sample_HS256
    "alice" "looking-glass" 1000 sample_users
  = (invalid_login_page, sample_users).
Proof.
  destruct (post_login_failure sample_check_password_hash sample_HS256
              "alice" "looking-glass" 1000 sample_users) as (Hfail & _).
  apply Hfail. right.
  exists (sample_generate_password_hash "pepper" "wonderland").
  split; vm_compute; reflexivity.
Defined.


Lemma post_change_password_frame_witness :
  (post_change_password sample_check_password_hash
     sample_generate_password_hash sample_HS256
     "wonderland" "looking-glass"
     (create_jwt_token sample_HS256 "alice" 1000) "salt" 2000
     (<["bob" := "builder$salt"]> sample_users)).2 !! "bob"
  = (<["bob" := "builder$salt"]> sample_users) !! "bob".
Proof.
  destruct (post_change_password_frame sample_check_password_hash
              sample_generate_password_hash sample_HS256
              "wonderland" "looking-glass"
              (create_jwt_token sample_HS256 "alice" 1000) "salt" 2000
              (<["bob" := "builder$salt"]> sample_users)) as (_ & Hother).
  apply (Hother {| payload_username := Some "alice";
                   payload_exp := Some 4600 |} "bob").
  - vm_compute. reflexivity.
  - discriminate.
Defined.

Lemma post_change_password_incorrect_witness :
  post_change_password sample_check_password_hash
    sample_generate_password_hash sample_HS256
    "looking-glass" "rabbit-hole"
    (create_jwt_token sample_HS256 "alice" 1000) "salt" 2000 sample_users
  = (TemplateResponse {| message := Some "Incorrect current password.";
                         action := "change-password"; token := None;
                         username := Some "alice" |} None, sample_users).
Proof.
  apply (post_change_password_incorrect sample_check_password_hash
           sample_generate_password_hash sample_HS256
           "looking-glass" "rabbit-hole"
           (create_jwt_token sample_HS256 "alice" 1000) "salt" 2000 sample_users
           {| payload_username := Some "alice"; payload_exp := Some 4600 |}
           "alice").
  - vm_compute. reflexivity.
  - reflexivity.
  - right. exists (sample_generate_password_hash "pepper" "wonderland").
    split; vm_compute; reflexivity.
Defined.


Lemma get_change_password_form_witness :
  get_change_password sample_HS256
    (Some (create_jwt_token sample_HS256 "alice" 1000)) 2000 sample_users
  = (TemplateResponse {| message := None; action := "change-password";
                         token := None; username := Some "alice" |} None,
     sample_users).
Proof.
  destruct (get_change_password_form sample_HS256 "alice" 1000 2000 sample_users)
    as (Hform & _).
  apply Hform. lia.
Defined.

Lemma login_cookie_not_read_witness :
  cookies_after (post_login sample_check_password_hash sample_HS256
                   "alice" "wonderland" 1000 sample_users).1
  = [("jwt_token", create_jwt_token sample_HS256 "alice" 1000)]
  ∧ get_change_password_route sample_HS256
      (cookies_after (post_login sample_check_password_hash sample_HS256
                        "alice" "wonderland" 1000 sample_users).1)
      2000 sample_users
    = (login_page "Token is missing", sample_users).
Proof.
  apply (login_cookie_not_read sample_check_password_hash sample_HS256
           "alice" "wonderland" 1000 2000 sample_users
           (sample_generate_password_hash "pepper" "wonderland"));
    vm_compute; reflexivity.
Defined.

End IdentityExtra.
